(** * rabbitmq-pod-autoscaler: the scaling decision and the control loop

    A shallow embedding of [main.go].  The program reads nine settings
    from the environment, then loops: it inspects a RabbitMQ queue, reads
    the scale of a Kubernetes deployment, computes the wanted number of
    replicas and updates the scale when it differs from the current one.

    Go's [int] is taken to be 64 bits wide (the image is built for
    Linux on a 64-bit machine), [int32] is 32 bits wide, and [float64]
    is IEEE 754 binary64, for which the Standard Library's [SpecFloat]
    gives an executable specification.  Floating-point operations round
    to nearest, ties to even, as Go's do.  A conversion to [int] of a
    value that does not fit succeeds with a value Go leaves to the
    implementation; the program then goes on with that value. *)

From Stdlib Require Import ZArith Bool List String Ascii Lia.
From Stdlib Require Import Floats.SpecFloat.
Import ListNotations.

Local Open Scope Z_scope.

(** ** Go integers *)

Module GoInt.

Definition min_int : Z := - 2 ^ 63.
Definition max_int : Z := 2 ^ 63 - 1.
Definition min_int32 : Z := - 2 ^ 31.
Definition max_int32 : Z := 2 ^ 31 - 1.

(** Two's complement wrap-around of [int] arithmetic. *)
Definition wrap (z : Z) : Z := (z + 2 ^ 63) mod 2 ^ 64 - 2 ^ 63.

(** The conversion [int32(z)] keeps the low 32 bits. *)
Definition wrap32 (z : Z) : Z := (z + 2 ^ 31) mod 2 ^ 32 - 2 ^ 31.

Definition add (a b : Z) : Z := wrap (a + b).
Definition sub (a b : Z) : Z := wrap (a - b).

End GoInt.

(** ** Go's float64 *)

Module Float64.

Definition prec : Z := 53.
Definition emax : Z := 1024.

Definition float64 : Type := spec_float.

Definition valid (x : float64) : bool := valid_binary prec emax x.

(** [float64(z)] for an integer [z]: rounded to nearest, ties to even. *)
Definition of_int (z : Z) : float64 := binary_normalize prec emax z 0 false.

Definition div (x y : float64) : float64 := SFdiv prec emax x y.
Definition mul (x y : float64) : float64 := SFmul prec emax x y.

Definition leb (x y : float64) : bool := SFleb x y.

Definition zero : float64 := S754_zero false.
Definition one : float64 := of_int 1.

(** The signed mantissa of a finite number. *)
Definition smant (s : bool) (m : positive) : Z := cond_Zopp s (Zpos m).

(** [math.Ceil]: least integral value not below [x]. Zeros, infinities
    and NaN are returned unchanged; a result that rounds to zero keeps
    the sign of [x]. *)
Definition Ceil (x : float64) : float64 :=
  match x with
  | S754_finite s m e =>
      if 0 <=? e then x
      else
        let k := - ((- smant s m) / 2 ^ (- e)) in
        if k =? 0 then S754_zero s else of_int k
  | _ => x
  end.

(** [math.Floor]: greatest integral value not above [x]. *)
Definition Floor (x : float64) : float64 :=
  match x with
  | S754_finite s m e =>
      if 0 <=? e then x
      else
        let k := smant s m / 2 ^ (- e) in
        if k =? 0 then S754_zero s else of_int k
  | _ => x
  end.

(** [int(x)] where Go defines it: the fraction is discarded.  When the
    value does not fit an [int] (or is an infinity or NaN) the language
    defines no result; that case is [None] here. *)
Definition to_int (x : float64) : option Z :=
  match x with
  | S754_zero _ => Some 0
  | S754_finite s m e =>
      let v := if 0 <=? e then smant s m * 2 ^ e
               else Z.quot (smant s m) (2 ^ (- e)) in
      if (GoInt.min_int <=? v) && (v <=? GoInt.max_int) then Some v else None
  | _ => None
  end.

(** [int(x)] as the program gets it.  The conversion always succeeds;
    where the language defines no result the value is the
    implementation's, [impl x] here, some [int]. *)
Definition to_int_impl (impl : float64 -> Z) (x : float64) : Z :=
  match to_int x with
  | Some v => v
  | None => GoInt.wrap (impl x)
  end.

End Float64.

Import Float64.

(** ** Configuration *)

Record Config : Type := {
  RabbitMQHost : string;
  QueueName : string;
  Namespace : string;
  Deployment : string;
  MaxPods : Z;
  MinPods : Z;
  MsgPerPod : Z;
  ScanInterval : Z;
  ScaleFactor : float64
}.

(** ** The scaling decision

    The statements of the loop body between reading the scale and
    updating it, in three steps, with the variables of the source.
    Two of them convert a [float64] to [int].  [rawReplicas],
    [dampReplicas] and [decide] give the values the language defines,
    and none where it leaves the conversion to the implementation;
    [rawReplicasOn], [dampReplicasOn] and [decideOn] give what the
    program computes on an implementation whose conversions are
    [impl]. *)

Definition bind {A B : Type} (o : option A) (f : A -> option B) : option B :=
  match o with
  | Some a => f a
  | None => None
  end.

Notation "x <- e ;; k" := (bind e (fun x => k))
  (at level 61, e at next level, right associativity).

(** [int(math.Ceil(float64(messageCount) / float64(config.MsgPerPod)))] *)
Definition rawReplicas (config : Config) (messageCount : Z) : option Z :=
  to_int (Ceil (div (of_int messageCount) (of_int (MsgPerPod config)))).

(** The two bound checks, in the order of the source. *)
Definition boundReplicas (config : Config) (replicas : Z) : Z :=
  let replicas := if replicas <? MinPods config then MinPods config else replicas in
  let replicas := if MaxPods config <? replicas then MaxPods config else replicas in
  replicas.

(** The scale-down branch. *)
Definition dampReplicas (config : Config) (currentReplicas replicas : Z) : option Z :=
  if replicas <? currentReplicas then
    desiredReplicas <-
      to_int (Floor (mul (of_int (GoInt.sub currentReplicas replicas))
                         (ScaleFactor config))) ;;
    Some (GoInt.add desiredReplicas replicas)
  else Some replicas.

Definition decide (config : Config) (messageCount currentReplicas : Z) : option Z :=
  replicas <- rawReplicas config messageCount ;;
  dampReplicas config currentReplicas (boundReplicas config replicas).

(** [int(math.Ceil(float64(messageCount) / float64(config.MsgPerPod)))]
    on an implementation. *)
Definition rawReplicasOn (impl : float64 -> Z) (config : Config)
    (messageCount : Z) : Z :=
  to_int_impl impl (Ceil (div (of_int messageCount) (of_int (MsgPerPod config)))).

(** The scale-down branch on an implementation. *)
Definition dampReplicasOn (impl : float64 -> Z) (config : Config)
    (currentReplicas replicas : Z) : Z :=
  if replicas <? currentReplicas then
    let desiredReplicas :=
      to_int_impl impl (Floor (mul (of_int (GoInt.sub currentReplicas replicas))
                                   (ScaleFactor config))) in
    GoInt.add desiredReplicas replicas
  else replicas.

Definition decideOn (impl : float64 -> Z) (config : Config)
    (messageCount currentReplicas : Z) : Z :=
  dampReplicasOn impl config currentReplicas
    (boundReplicas config (rawReplicasOn impl config messageCount)).

(** ** The collaborators of one loop iteration

    The AMQP channel and the Kubernetes client are outside the program;
    an iteration sees them through the answers they give.  [Messages] is
    the [int] field of [amqp.Queue], [Replicas] the [int32] field of the
    scale's spec.  The machine the program runs on is outside it too:
    [Convert] is what a conversion to [int] gives where the language
    leaves the value to the implementation. *)

Inductive result (A : Type) : Type :=
| Ok (a : A)
| Err (msg : string).
Arguments Ok {A} a.
Arguments Err {A} msg.

Record Queue : Type := {
  Messages : Z
}.

Record Scale : Type := {
  Name : string;
  ScaleNamespace : string;
  Replicas : Z
}.

Record Collaborators : Type := {
  QueueInspect : string -> result Queue;
  GetScale : string -> string -> result Scale;
  UpdateScale : string -> string -> Scale -> result unit;
  Convert : float64 -> Z
}.

(** What [panic(fmt.Errorf(...))] reports. *)
Inductive PanicMsg : Type :=
| ConfigNotSet (envName : string)
| ConfigNotInt (fieldName : string)
| ConfigNotFloat (fieldName : string)
| KubeConfigError (err : string)
| KubeClientError (err : string)
| RabbitConnectError (err : string)
| RabbitChannelError (err : string)
| RabbitInspectError (err : string)
| KubeGetScaleError (err : string)
| KubeScalingError (err : string).

(** The lines written by [println]. *)
Inductive LogLine : Type :=
| DebugMessageCount (n : Z)
| DebugCurrentReplicas (n : Z)
| DebugDesiredReplicas (n : Z)
| DebugScaleDown (factor : float64) (n : Z)
| ScaledTo (n : Z).

(** The observable actions of the loop, in program order. *)
Inductive Event : Type :=
| EQueueInspect (queue : string)
| ECloseChannel
| ECloseConnection
| EGetScale (namespace deployment : string)
| EUpdateScale (namespace deployment : string) (scale : Scale)
| EPrintln (line : LogLine)
| ESleep (nanoseconds : Z).

(** How an iteration ends: it reaches the sleep or it panics. *)
Inductive Outcome : Type :=
| Slept
| Panicked (p : PanicMsg).

Definition when (b : bool) (l : list Event) : list Event := if b then l else [].

(** One iteration of the [for] loop. *)
Definition tick (config : Config) (debug : bool) (c : Collaborators)
  : list Event * Outcome :=
  let t0 := [EQueueInspect (QueueName config)] in
  match QueueInspect c (QueueName config) with
  | Err err =>
      (t0 ++ [ECloseChannel; ECloseConnection], Panicked (RabbitInspectError err))
  | Ok queue =>
      let messageCount := Messages queue in
      let t1 := t0 ++ when debug [EPrintln (DebugMessageCount messageCount)]
                   ++ [EGetScale (Namespace config) (Deployment config)] in
      match GetScale c (Namespace config) (Deployment config) with
      | Err err => (t1, Panicked (KubeGetScaleError err))
      | Ok currentScale =>
          let currentReplicas := Replicas currentScale in
          let replicas := rawReplicasOn (Convert c) config messageCount in
          let replicas := boundReplicas config replicas in
          let t2 := t1 ++ when debug
                      [EPrintln (DebugCurrentReplicas currentReplicas);
                       EPrintln (DebugDesiredReplicas replicas)] in
          let target := dampReplicasOn (Convert c) config currentReplicas replicas in
          let t3 := t2 ++ when (andb debug (replicas <? currentReplicas))
                      [EPrintln (DebugScaleDown (ScaleFactor config) target)] in
          let sleep :=
            [ESleep (GoInt.wrap (GoInt.wrap (ScanInterval config) * 1000000000))] in
          if negb (target =? currentReplicas) then
            let scale := {| Name := Name currentScale;
                            ScaleNamespace := ScaleNamespace currentScale;
                            Replicas := GoInt.wrap32 target |} in
            let t4 := t3 ++ [EUpdateScale (Namespace config) (Deployment config) scale] in
            match UpdateScale c (Namespace config) (Deployment config) scale with
            | Err err => (t4, Panicked (KubeScalingError err))
            | Ok _ => (t4 ++ [EPrintln (ScaledTo target)] ++ sleep, Slept)
            end
          else (t3 ++ sleep, Slept)
      end
  end.

(** The loop itself never ends on its own; [loop] runs it against the
    answers of finitely many iterations and stops at the first one that
    panics.  Nothing but [config] and [debug] passes from one iteration
    to the next. *)
Fixpoint loop (config : Config) (debug : bool) (cs : list Collaborators)
  : list Event * Outcome :=
  match cs with
  | [] => ([], Slept)
  | c :: cs' =>
      match tick config debug c with
      | (t, Slept) => let '(t', o) := loop config debug cs' in (t ++ t', o)
      | (t, o) => (t, o)
      end
  end.

Definition is_update (e : Event) : bool :=
  match e with
  | EUpdateScale _ _ _ => true
  | _ => false
  end.

(** The apply calls of a trace. *)
Definition updates (t : list Event) : list Event := filter is_update t.

(** ** Reading the configuration

    The settings are bound to the fields of [Config] by walking the
    fields of [configKeys] in declaration order.  Every field named
    there exists in [Config] and is settable, so the two reflection
    guards never fire and are left out. *)

Definition Environ : Type := list (string * string).

(** [os.Getenv]: the value of the variable, or the empty string. *)
Fixpoint Getenv (env : Environ) (key : string) : string :=
  match env with
  | [] => EmptyString
  | (k, v) :: env' => if String.eqb k key then v else Getenv env' key
  end.

Module Strconv.

Definition digit (c : ascii) : option Z :=
  let n := Z.of_nat (nat_of_ascii c) in
  if (48 <=? n) && (n <=? 57) then Some (n - 48) else None.

(** The value of a non-empty string of decimal digits, [acc] being
    the value of the digits already read. *)
Fixpoint digits (acc : Z) (s : string) : option Z :=
  match s with
  | EmptyString => Some acc
  | String c s' =>
      match digit c with
      | Some d => digits (10 * acc + d) s'
      | None => None
      end
  end.

Definition unsigned (s : string) : option Z :=
  match s with
  | EmptyString => None
  | _ => digits 0 s
  end.

(** [strconv.ParseInt(s, 10, 64)]: an optional sign, then decimal
    digits; [None] stands for both the syntax and the range error. *)
Definition ParseInt (s : string) : option Z :=
  match s with
  | EmptyString => None
  | String c s' =>
      let '(neg, body) :=
        if Ascii.eqb c "+"%char then (false, s')
        else if Ascii.eqb c "-"%char then (true, s')
        else (false, s) in
      match unsigned body with
      | None => None
      | Some un =>
          if neg then (if un <=? 2 ^ 63 then Some (- un) else None)
          else (if un <? 2 ^ 63 then Some un else None)
      end
  end.

(** The digits before the decimal point and those after it. *)
Definition split_point (s : string) : string * string :=
  match String.index 0 "." s with
  | Some i => (String.substring 0 i s,
               String.substring (S i) (String.length s - S i) s)
  | None => (s, EmptyString)
  end.

(** [strconv.ParseFloat(s, 64)] on plain decimal literals [ddd] and
    [ddd.ddd] of at most fifteen digits.  There the mantissa and the
    power of ten are both exact in binary64 and the result is their
    correctly rounded quotient.  Every other input is treated as a
    syntax error by this instance, which the library function does
    not always do; it is used for concrete runs only. *)
Definition ParseFloat_plain (s : string) : option float64 :=
  let '(ip, fp) := split_point s in
  let ds := String.append ip fp in
  if (Nat.leb (String.length ds) 15) then
    match unsigned ds with
    | Some w => Some (div (of_int w) (of_int (10 ^ Z.of_nat (String.length fp))))
    | None => None
    end
  else None.

End Strconv.

Inductive Kind : Type := KString | KInt | KFloat64.

Inductive Field : Type :=
| FRabbitMQHost | FQueueName | FNamespace | FDeployment
| FMaxPods | FMinPods | FMsgPerPod | FScanInterval | FScaleFactor.

Definition fieldName (f : Field) : string :=
  match f with
  | FRabbitMQHost => "RabbitMQHost"
  | FQueueName => "QueueName"
  | FNamespace => "Namespace"
  | FDeployment => "Deployment"
  | FMaxPods => "MaxPods"
  | FMinPods => "MinPods"
  | FMsgPerPod => "MsgPerPod"
  | FScanInterval => "ScanInterval"
  | FScaleFactor => "ScaleFactor"
  end.

(** The kind of the [Config] field of that name. *)
Definition fieldKind (f : Field) : Kind :=
  match f with
  | FRabbitMQHost | FQueueName | FNamespace | FDeployment => KString
  | FMaxPods | FMinPods | FMsgPerPod | FScanInterval => KInt
  | FScaleFactor => KFloat64
  end.

(** [configKeys]: each field with the name of its environment variable. *)
Definition configKeys : list (Field * string) :=
  [ (FRabbitMQHost, "AMQP_HOST"); (FQueueName, "AMQP_BUILD_QUEUE");
    (FNamespace, "NAMESPACE"); (FDeployment, "DEPLOYMENT");
    (FMaxPods, "MAX_PODS"); (FMinPods, "MIN_PODS");
    (FMsgPerPod, "MSG_PER_POD"); (FScanInterval, "SCAN_INTERVAL");
    (FScaleFactor, "SCALE_FACTOR") ]%string.

Definition emptyConfig : Config :=
  {| RabbitMQHost := ""; QueueName := ""; Namespace := ""; Deployment := "";
     MaxPods := 0; MinPods := 0; MsgPerPod := 0; ScanInterval := 0;
     ScaleFactor := S754_zero false |}.

Definition SetString (c : Config) (f : Field) (v : string) : Config :=
  match f with
  | FRabbitMQHost =>
      {| RabbitMQHost := v; QueueName := QueueName c; Namespace := Namespace c;
         Deployment := Deployment c; MaxPods := MaxPods c; MinPods := MinPods c;
         MsgPerPod := MsgPerPod c; ScanInterval := ScanInterval c;
         ScaleFactor := ScaleFactor c |}
  | FQueueName =>
      {| RabbitMQHost := RabbitMQHost c; QueueName := v; Namespace := Namespace c;
         Deployment := Deployment c; MaxPods := MaxPods c; MinPods := MinPods c;
         MsgPerPod := MsgPerPod c; ScanInterval := ScanInterval c;
         ScaleFactor := ScaleFactor c |}
  | FNamespace =>
      {| RabbitMQHost := RabbitMQHost c; QueueName := QueueName c; Namespace := v;
         Deployment := Deployment c; MaxPods := MaxPods c; MinPods := MinPods c;
         MsgPerPod := MsgPerPod c; ScanInterval := ScanInterval c;
         ScaleFactor := ScaleFactor c |}
  | FDeployment =>
      {| RabbitMQHost := RabbitMQHost c; QueueName := QueueName c;
         Namespace := Namespace c; Deployment := v; MaxPods := MaxPods c;
         MinPods := MinPods c; MsgPerPod := MsgPerPod c;
         ScanInterval := ScanInterval c; ScaleFactor := ScaleFactor c |}
  | _ => c
  end.

Definition SetInt (c : Config) (f : Field) (v : Z) : Config :=
  match f with
  | FMaxPods =>
      {| RabbitMQHost := RabbitMQHost c; QueueName := QueueName c;
         Namespace := Namespace c; Deployment := Deployment c; MaxPods := v;
         MinPods := MinPods c; MsgPerPod := MsgPerPod c;
         ScanInterval := ScanInterval c; ScaleFactor := ScaleFactor c |}
  | FMinPods =>
      {| RabbitMQHost := RabbitMQHost c; QueueName := QueueName c;
         Namespace := Namespace c; Deployment := Deployment c; MaxPods := MaxPods c;
         MinPods := v; MsgPerPod := MsgPerPod c;
         ScanInterval := ScanInterval c; ScaleFactor := ScaleFactor c |}
  | FMsgPerPod =>
      {| RabbitMQHost := RabbitMQHost c; QueueName := QueueName c;
         Namespace := Namespace c; Deployment := Deployment c; MaxPods := MaxPods c;
         MinPods := MinPods c; MsgPerPod := v;
         ScanInterval := ScanInterval c; ScaleFactor := ScaleFactor c |}
  | FScanInterval =>
      {| RabbitMQHost := RabbitMQHost c; QueueName := QueueName c;
         Namespace := Namespace c; Deployment := Deployment c; MaxPods := MaxPods c;
         MinPods := MinPods c; MsgPerPod := MsgPerPod c;
         ScanInterval := v; ScaleFactor := ScaleFactor c |}
  | _ => c
  end.

Definition SetFloat (c : Config) (f : Field) (v : float64) : Config :=
  match f with
  | FScaleFactor =>
      {| RabbitMQHost := RabbitMQHost c; QueueName := QueueName c;
         Namespace := Namespace c; Deployment := Deployment c; MaxPods := MaxPods c;
         MinPods := MinPods c; MsgPerPod := MsgPerPod c;
         ScanInterval := ScanInterval c; ScaleFactor := v |}
  | _ => c
  end.

Section Startup.

(** [strconv.ParseFloat(s, 64)], a function of the Go library: [None]
    when it reports an error. *)
Variable ParseFloat : string -> option float64.

(** The body of the loop over the fields of [configKeys]. *)
Definition loadField (env : Environ) (c : Config) (key : Field * string)
  : PanicMsg + Config :=
  let '(f, envName) := key in
  let value := Getenv env envName in
  if String.eqb value "" then inl (ConfigNotSet envName)
  else
    match fieldKind f with
    | KInt =>
        match Strconv.ParseInt value with
        | None => inl (ConfigNotInt (fieldName f))
        | Some number => inr (SetInt c f number)
        end
    | KString => inr (SetString c f value)
    | KFloat64 =>
        match ParseFloat value with
        | None => inl (ConfigNotFloat (fieldName f))
        | Some number => inr (SetFloat c f number)
        end
    end.

Fixpoint loadFields (env : Environ) (c : Config) (keys : list (Field * string))
  : PanicMsg + Config :=
  match keys with
  | [] => inr c
  | key :: keys' =>
      match loadField env c key with
      | inl p => inl p
      | inr c' => loadFields env c' keys'
      end
  end.

Definition loadConfig (env : Environ) : PanicMsg + Config :=
  loadFields env emptyConfig configKeys.

(** What the program needs to reach the loop besides its settings. *)
Record Boot : Type := {
  InClusterConfig : result unit;
  NewForConfig : result unit;
  Dial : string -> result unit;
  Channel : result unit
}.

(** [main], run against the answers of finitely many iterations. *)
Definition main (env : Environ) (boot : Boot) (cs : list Collaborators)
  : list Event * Outcome :=
  let debug := String.eqb (Getenv env "DEBUG") "true" in
  match loadConfig env with
  | inl p => ([], Panicked p)
  | inr config =>
      match InClusterConfig boot with
      | Err e => ([], Panicked (KubeConfigError e))
      | Ok _ =>
          match NewForConfig boot with
          | Err e => ([], Panicked (KubeClientError e))
          | Ok _ =>
              match Dial boot (RabbitMQHost config) with
              | Err e => ([], Panicked (RabbitConnectError e))
              | Ok _ =>
                  match Channel boot with
                  | Err e => ([], Panicked (RabbitChannelError e))
                  | Ok _ => loop config debug cs
                  end
              end
          end
      end
  end.

End Startup.

(** ** Arithmetic the theorems are stated with *)

(** The integer ceiling of [a / b] for a positive [b]. *)
Definition ceil_div (a b : Z) : Z := - ((- a) / b).

(** Round to nearest, ties to even, of the non-negative fraction [a / b]. *)
Definition rne (a b : Z) : Z :=
  let q := a / b in
  let r := a mod b in
  match 2 * r ?= b with
  | Lt => q
  | Eq => if Z.even q then q else q + 1
  | Gt => q + 1
  end.

(** The position of [a / b] between [a / b] rounded down and the next
    integer, as the rounding functions of [SpecFloat] record it. *)
Definition loc_of (a b : Z) : location :=
  if a mod b =? 0 then loc_Exact else loc_Inexact (2 * (a mod b) ?= b).

(** The binary64 number [m * 2 ^ e] for a rounded mantissa [0 <= m <= 2 ^ 53]. *)
Definition pack (s : bool) (m e : Z) : float64 :=
  match m with
  | Zpos p =>
      if m =? 2 ^ 53 then
        (if e + 1 <=? emax - prec then S754_finite s (Z.to_pos (2 ^ 52)) (e + 1)
         else S754_infinity s)
      else
        (if e <=? emax - prec then S754_finite s p e else S754_infinity s)
  | _ => S754_zero s
  end.

(** A shift record that stands for the fraction [a / b]: its mantissa is
    the quotient, its round bit tells whether the remainder reaches one
    half, its sticky bit whether anything lies off the quotient and the
    half. *)
Definition record_ok (a b : Z) (r : shr_record) : Prop :=
  shr_m r = a / b /\
  shr_r r = (b <=? 2 * (a mod b)) /\
  shr_s r = negb ((a mod b =? 0) || (2 * (a mod b) =? b)).

(** The mathematical floor of a binary64 number, as an unbounded
    integer; infinities and NaN have none. *)
Definition floor64 (x : float64) : option Z :=
  match x with
  | S754_zero _ => Some 0
  | S754_finite s m e =>
      Some (if 0 <=? e then smant s m * 2 ^ e else smant s m / 2 ^ (- e))
  | _ => None
  end.




(** A normal binary64 number has a mantissa of exactly 53 bits. *)
Definition normal (m : positive) : Prop := 2 ^ 52 <= Zpos m < 2 ^ 53.

(** ** The data model of the specification *)

(** The value of [replicas] after the two bound checks, before damping. *)
Definition boundedReplicas (config : Config) (messageCount : Z) : option Z :=
  option_map (boundReplicas config) (rawReplicas config messageCount).

(** Scaling parameters as the specification wants them: the bounds
    ordered and non-negative, a positive backlog per replica, a
    non-negative damping factor; all of them values of their Go types. *)
Definition valid_params (c : Config) : Prop :=
  0 <= MinPods c <= MaxPods c /\ MaxPods c <= GoInt.max_int /\
  0 < MsgPerPod c <= GoInt.max_int /\
  valid (ScaleFactor c) = true /\ leb zero (ScaleFactor c) = true.

(** The damping factor one half. *)
Definition half : float64 := S754_finite false 4503599627370496 (-53).

(** The apply call that sets [target] on the scale just read. *)
Definition apply_call (config : Config) (currentScale : Scale) (target : Z) : Event :=
  EUpdateScale (Namespace config) (Deployment config)
    {| Name := Name currentScale;
       ScaleNamespace := ScaleNamespace currentScale;
       Replicas := GoInt.wrap32 target |}.

(** Concrete settings and collaborators for examples. *)
Definition example_config (f : float64) : Config :=
  {| RabbitMQHost := "amqp://queue"; QueueName := "builds"; Namespace := "ci";
     Deployment := "worker"; MaxPods := 10; MinPods := 1; MsgPerPod := 10;
     ScanInterval := 30; ScaleFactor := f |}.

(** On amd64 a conversion the language does not define gives the least
    [int]. *)
Definition amd64 : float64 -> Z := fun _ => GoInt.min_int.

Definition example_collaborators (messages replicas : Z) : Collaborators :=
  {| QueueInspect := fun _ => Ok {| Messages := messages |};
     GetScale := fun _ _ =>
       Ok {| Name := "worker"; ScaleNamespace := "ci"; Replicas := replicas |};
     UpdateScale := fun _ _ _ => Ok tt;
     Convert := amd64 |}.

Definition example_boot : Boot :=
  {| InClusterConfig := Ok tt; NewForConfig := Ok tt;
     Dial := fun _ => Ok tt; Channel := Ok tt |}.

(** Settings that parse but put the minimum above the maximum. *)
Definition inverted_env : Environ :=
  [ ("AMQP_HOST", "amqp://queue"); ("AMQP_BUILD_QUEUE", "builds");
    ("NAMESPACE", "ci"); ("DEPLOYMENT", "worker");
    ("MAX_PODS", "3"); ("MIN_PODS", "5"); ("MSG_PER_POD", "10");
    ("SCAN_INTERVAL", "30"); ("SCALE_FACTOR", "0.5") ]%string.

(** The settings are all present and parse to the fields of [cfg]. *)
Definition settings_parse (ParseFloat : string -> option float64)
    (env : Environ) (cfg : Config) : Prop :=
  (Getenv env "AMQP_HOST" <> "" /\ Getenv env "AMQP_HOST" = RabbitMQHost cfg)%string /\
  (Getenv env "AMQP_BUILD_QUEUE" <> "" /\ Getenv env "AMQP_BUILD_QUEUE" = QueueName cfg)%string /\
  (Getenv env "NAMESPACE" <> "" /\ Getenv env "NAMESPACE" = Namespace cfg)%string /\
  (Getenv env "DEPLOYMENT" <> "" /\ Getenv env "DEPLOYMENT" = Deployment cfg)%string /\
  Strconv.ParseInt (Getenv env "MAX_PODS") = Some (MaxPods cfg) /\
  Strconv.ParseInt (Getenv env "MIN_PODS") = Some (MinPods cfg) /\
  Strconv.ParseInt (Getenv env "MSG_PER_POD") = Some (MsgPerPod cfg) /\
  Strconv.ParseInt (Getenv env "SCAN_INTERVAL") = Some (ScanInterval cfg) /\
  (Getenv env "SCALE_FACTOR" <> "" /\
   ParseFloat (Getenv env "SCALE_FACTOR") = Some (ScaleFactor cfg))%string.

(** The program reached its loop: nothing failed while connecting. *)
Definition boots (boot : Boot) (host : string) : Prop :=
  InClusterConfig boot = Ok tt /\ NewForConfig boot = Ok tt /\
  Dial boot host = Ok tt /\ Channel boot = Ok tt.

(** ** Observing a trace *)

Definition is_println (e : Event) : bool :=
  match e with
  | EPrintln _ => true
  | _ => false
  end.

(** The calls of a trace: everything but the printed lines. *)
Definition calls (t : list Event) : list Event :=
  filter (fun e => negb (is_println e)) t.

(** The printed lines of a trace. *)
Definition prints (t : list Event) : list Event := filter is_println t.

Definition is_sleep (e : Event) : bool :=
  match e with
  | ESleep _ => true
  | _ => false
  end.

(** The pauses of a trace. *)
Definition sleeps (t : list Event) : list Event := filter is_sleep t.

(** The pause at the end of an iteration, in nanoseconds. *)
Definition pause (config : Config) : Event :=
  ESleep (GoInt.wrap (GoInt.wrap (ScanInterval config) * 1000000000)).

(** ** Repeated decisions *)

(** The decision taken again and again on an unchanged backlog, each
    target becoming the next current count: what the loop does to a
    deployment nobody else touches, while its updates succeed. *)
Fixpoint settle (config : Config) (messageCount currentReplicas : Z) (n : nat)
  : option Z :=
  match n with
  | O => Some currentReplicas
  | S n' =>
      match decide config messageCount currentReplicas with
      | Some target => settle config messageCount target n'
      | None => None
      end
  end.

(** Iterations on an unchanged backlog against a deployment nobody else
    touches: each one reads the backlog [p] and, as the current count,
    the target the iteration before it decided. *)
Inductive steady (config : Config) (p : Z) : Z -> list Collaborators -> Prop :=
| steady_nil (cur : Z) : steady config p cur []
| steady_cons (cur : Z) (c : Collaborators) (cs : list Collaborators)
    (queue : Queue) (currentScale : Scale) :
    QueueInspect c (QueueName config) = Ok queue -> Messages queue = p ->
    GetScale c (Namespace config) (Deployment config) = Ok currentScale ->
    Replicas currentScale = cur ->
    (forall target, decide config p cur = Some target ->
                    steady config p target cs) ->
    steady config p cur (c :: cs).

(** The number of apply calls it takes at most to bring [cur] to [b]. *)
Definition steps_to (b cur : Z) : nat :=
  if cur <? b then 1%nat else Z.to_nat (cur - b).

(** The binary64 number [2 ^ (- j)], for [0 <= j <= 1022]. *)
Definition pow2_neg (j : Z) : float64 :=
  S754_finite false (Z.to_pos (2 ^ 52)) (- 52 - j).

(** ** More examples *)

(** A queue that cannot be inspected. *)
Definition broken_queue : Collaborators :=
  {| QueueInspect := fun _ => Err "channel closed";
     GetScale := fun _ _ =>
       Ok {| Name := "worker"; ScaleNamespace := "ci"; Replicas := 1 |};
     UpdateScale := fun _ _ _ => Ok tt;
     Convert := amd64 |}.

(** An environment that lacks most settings and has a malformed one. *)
Definition partial_env : Environ :=
  [ ("AMQP_HOST", "amqp://queue"); ("MAX_PODS", "ten") ]%string.

(** Settings with no backlog per replica. *)
Definition zero_config : Config :=
  {| RabbitMQHost := "amqp://queue"; QueueName := "builds"; Namespace := "ci";
     Deployment := "worker"; MaxPods := 10; MinPods := 1; MsgPerPod := 0;
     ScanInterval := 30; ScaleFactor := half |}.

(** Settings with a negative backlog per replica. *)
Definition negative_config : Config :=
  {| RabbitMQHost := "amqp://queue"; QueueName := "builds"; Namespace := "ci";
     Deployment := "worker"; MaxPods := 10; MinPods := 1; MsgPerPod := -10;
     ScanInterval := 30; ScaleFactor := half |}.

(** Settings whose maximum is beyond [int32]. *)
Definition huge_config : Config :=
  {| RabbitMQHost := "amqp://queue"; QueueName := "builds"; Namespace := "ci";
     Deployment := "worker"; MaxPods := 3000000000; MinPods := 1; MsgPerPod := 1;
     ScanInterval := 30; ScaleFactor := half |}.

(** * Proofs *)

(** ** Powers of two under linear arithmetic *)

Ltac is_pos_cst p :=
  lazymatch p with
  | xH => idtac
  | xO ?q => is_pos_cst q
  | xI ?q => is_pos_cst q
  end.

Ltac is_Z_cst z :=
  lazymatch z with
  | Z0 => idtac
  | Zpos ?p => is_pos_cst p
  | Zneg ?p => is_pos_cst p
  end.

(** Name every power of two whose exponent is not a numeral, so that
    [lia] and [nia] see it as a variable. *)
Ltac name_pows :=
  repeat match goal with
  | |- context [2 ^ ?e] =>
      tryif is_Z_cst e then fail else
        (let x := fresh "pw" in set (x := 2 ^ e) in *; clearbody x)
  | H : context [2 ^ ?e] |- _ =>
      tryif is_Z_cst e then fail else
        (let x := fresh "pw" in set (x := 2 ^ e) in *; clearbody x)
  end.

Ltac plia := name_pows; lia.
Ltac pnia := name_pows; nia.

(** Case analysis on the next check of the configuration loop. *)
Ltac step_load ParseFloat :=
  match goal with
  | |- context [String.eqb ?a ""%string] =>
      destruct (String.eqb_spec a ""%string)
  | |- context [match Strconv.ParseInt ?a with _ => _ end] =>
      destruct (Strconv.ParseInt a) eqn:?
  | |- context [match ParseFloat ?a with _ => _ end] =>
      destruct (ParseFloat a) eqn:?
  end.

Ltac refute_settings :=
  split; [ discriminate | ];
  unfold settings_parse;
  intros ((? & ?) & (? & ?) & (? & ?) & (? & ?) & ? & ? & ? & ? & (? & ?));
  repeat match goal with
  | E : Getenv _ _ = ""%string, H : Strconv.ParseInt (Getenv _ _) = Some _ |- _ =>
      rewrite E in H; discriminate H
  end;
  congruence.

(** ** Binary digits *)

Lemma digits2_pos_bounds (p : positive) :
  2 ^ (Zpos (digits2_pos p) - 1) <= Zpos p < 2 ^ Zpos (digits2_pos p).
Proof.
  induction p as [p IH | p IH | ]; cbn [digits2_pos].
  - rewrite Pos2Z.inj_succ, Pos2Z.inj_xI.
    replace (Z.succ (Zpos (digits2_pos p)) - 1) with (Z.succ (Zpos (digits2_pos p) - 1)) by lia.
    rewrite !Z.pow_succ_r by lia. plia.
  - rewrite Pos2Z.inj_succ, (Pos2Z.inj_xO p).
    replace (Z.succ (Zpos (digits2_pos p)) - 1) with (Z.succ (Zpos (digits2_pos p) - 1)) by lia.
    rewrite !Z.pow_succ_r by lia. plia.
  - cbn. lia.
Qed.

Lemma Zdigits2_bounds (z : Z) :
  0 < z -> 2 ^ (Zdigits2 z - 1) <= z < 2 ^ Zdigits2 z.
Proof.
  destruct z as [ | p | p ]; try lia. intros _. apply digits2_pos_bounds.
Qed.

Lemma Zdigits2_pos (z : Z) : 0 < z -> 0 < Zdigits2 z.
Proof. destruct z; cbn; lia. Qed.

Lemma Zdigits2_nonneg (z : Z) : 0 <= Zdigits2 z.
Proof. destruct z; cbn; lia. Qed.

Lemma Zdigits2_unique (z d : Z) :
  2 ^ (d - 1) <= z < 2 ^ d -> 0 < z -> Zdigits2 z = d.
Proof.
  intros H Hz.
  pose proof (Zdigits2_bounds z Hz) as B.
  pose proof (Zdigits2_pos z Hz) as P.
  assert (0 < d).
  { destruct (Z_lt_le_dec 0 d); trivial.
    assert (2 ^ d <= 2 ^ 0) by (destruct (Z_lt_le_dec d 0);
      [ rewrite Z.pow_neg_r by lia; cbn; lia | apply Z.pow_le_mono_r; lia ]).
    cbn in *. lia. }
  destruct (Z_lt_le_dec (Zdigits2 z) d) as [L | L].
  - assert (2 ^ Zdigits2 z <= 2 ^ (d - 1)) by (apply Z.pow_le_mono_r; lia). lia.
  - destruct (Z_lt_le_dec d (Zdigits2 z)) as [G | G]; [ | lia ].
    assert (2 ^ d <= 2 ^ (Zdigits2 z - 1)) by (apply Z.pow_le_mono_r; lia). lia.
Qed.

Lemma Zdigits2_lt_pow (z d : Z) : 0 <= z < 2 ^ d -> 0 <= d -> Zdigits2 z <= d.
Proof.
  intros [Hz H] Hd.
  destruct (Z.eq_dec z 0) as [-> | N]; [ cbn; lia | ].
  pose proof (Zdigits2_bounds z ltac:(lia)) as B.
  destruct (Z_lt_le_dec d (Zdigits2 z)) as [G | G]; [ | lia ].
  assert (2 ^ d <= 2 ^ (Zdigits2 z - 1)) by (apply Z.pow_le_mono_r; lia). lia.
Qed.

Lemma fexp_eq (e : Z) : fexp prec emax e = Z.max (e - 53) (-1074).
Proof. reflexivity. Qed.

(** ** Shifting a record to the right *)

Lemma shr_1_nonneg (m : Z) (r s : bool) :
  0 <= m ->
  shr_1 {| shr_m := m; shr_r := r; shr_s := s |} =
  {| shr_m := m / 2; shr_r := Z.odd m; shr_s := r || s |}.
Proof.
  intros Hm. destruct m as [ | p | p ]; [ reflexivity | | lia ].
  destruct p as [p | p | ]; cbn [shr_1].
  - f_equal. rewrite (Pos2Z.inj_xI p).
    apply (Z.div_unique_pos _ _ _ 1); lia.
  - f_equal. rewrite (Pos2Z.inj_xO p).
    apply (Z.div_unique_pos _ _ _ 0); lia.
  - reflexivity.
Qed.

Lemma record_ok_shr_1 (a b : Z) (r : shr_record) :
  0 <= a -> 0 < b -> record_ok a b r -> record_ok a (b * 2) (shr_1 r).
Proof.
  intros Ha Hb (Hm & Hr & Hs). destruct r as [m rr ss]. cbn [shr_m shr_r shr_s] in Hm, Hr, Hs.
  assert (0 <= m) by (subst m; apply Z.div_pos; lia).
  rewrite shr_1_nonneg by trivial.
  pose proof (Z.mod_pos_bound a b Hb) as Bm.
  pose proof (Z.rem_mul_r a b 2 ltac:(lia) ltac:(lia)) as E.
  pose proof (Z.mod_pos_bound (a / b) 2 ltac:(lia)) as B2.
  assert (O : Z.odd m = ((a / b) mod 2 =? 1)).
  { subst m. rewrite Zmod_odd. destruct (Z.odd (a / b)); reflexivity. }
  unfold record_ok; cbn [shr_m shr_r shr_s].
  rewrite E, O, Hr, Hs. split; [ subst m; rewrite Z.div_div by lia; reflexivity | ].
  clear E O Hr Hs Hm.
  set (r0 := a mod b) in *. set (t := (a / b) mod 2) in *. clearbody r0 t.
  assert (T : t = 0 \/ t = 1) by lia.
  split.
  - destruct T; subst t;
      destruct (Z.leb_spec (b * 2) (2 * (r0 + b * 0)));
      destruct (Z.leb_spec (b * 2) (2 * (r0 + b * 1))); cbn; try reflexivity; lia.
  - destruct (Z.eqb_spec r0 0) as [e0 | e0];
    destruct (Z.eqb_spec (2 * r0) b) as [e1 | e1];
    destruct (Z.leb_spec b (2 * r0)) as [e2 | e2];
    destruct (Z.eqb_spec (r0 + b * t) 0) as [e3 | e3];
    destruct (Z.eqb_spec (2 * (r0 + b * t)) (b * 2)) as [e4 | e4];
    cbn; try reflexivity; exfalso; destruct T; subst t; lia.
Qed.

Lemma record_ok_iter (p : positive) :
  forall (a b : Z) (r : shr_record),
    0 <= a -> 0 < b -> record_ok a b r ->
    record_ok a (b * 2 ^ Zpos p) (iter_pos shr_1 p r).
Proof.
  induction p as [p IH | p IH | ]; intros a b r Ha Hb H; cbn [iter_pos].
  - replace (b * 2 ^ Zpos p~1) with (b * 2 * 2 ^ Zpos p * 2 ^ Zpos p).
    + assert (0 < 2 ^ Zpos p) by (apply Z.pow_pos_nonneg; lia).
      apply IH; try nia. apply IH; try nia. apply record_ok_shr_1; trivial.
    + rewrite (Pos2Z.inj_xI p).
      replace (2 * Zpos p + 1) with (1 + Zpos p + Zpos p) by lia.
      rewrite !Z.pow_add_r by lia. change (2 ^ 1) with 2. ring.
  - replace (b * 2 ^ Zpos p~0) with (b * 2 ^ Zpos p * 2 ^ Zpos p).
    + assert (0 < 2 ^ Zpos p) by (apply Z.pow_pos_nonneg; lia).
      apply IH; try nia. apply IH; trivial.
    + rewrite (Pos2Z.inj_xO p). replace (2 * Zpos p) with (Zpos p + Zpos p) by lia.
      rewrite Z.pow_add_r by lia. ring.
  - change (2 ^ 1) with 2. apply record_ok_shr_1; trivial.
Qed.

Lemma shr_ok (a b e n : Z) (r : shr_record) :
  0 <= a -> 0 < b -> record_ok a b r ->
  exists r', shr r e n = (r', e + Z.max 0 n) /\
             record_ok a (b * 2 ^ Z.max 0 n) r'.
Proof.
  intros Ha Hb H. destruct n as [ | p | p ]; cbn [shr].
  - exists r. rewrite Z.max_id, Z.add_0_r, Z.pow_0_r, Z.mul_1_r. split; trivial.
  - exists (iter_pos shr_1 p r). rewrite Z.max_r by lia. split; trivial.
    apply record_ok_iter; trivial.
  - exists r. rewrite Z.max_l by lia. rewrite Z.add_0_r, Z.pow_0_r, Z.mul_1_r. split; trivial.
Qed.

Lemma record_ok_of_loc (a b : Z) :
  0 <= a -> 0 < b -> record_ok a b (shr_record_of_loc (a / b) (loc_of a b)).
Proof.
  intros Ha Hb. pose proof (Z.mod_pos_bound a b Hb) as Bm.
  unfold loc_of, record_ok.
  destruct (Z.eqb_spec (a mod b) 0) as [e0 | e0]; cbn [shr_record_of_loc].
  - cbn [shr_m shr_r shr_s]. rewrite e0. repeat split; cbn.
    symmetry; apply Z.leb_gt; lia.
  - destruct (Z.compare_spec (2 * (a mod b)) b) as [c | c | c];
      cbn [shr_m shr_r shr_s]; repeat split;
      destruct (Z.eqb_spec (2 * (a mod b)) b);
      destruct (Z.leb_spec b (2 * (a mod b))); cbn; try reflexivity; lia.
Qed.

Lemma round_record (a b : Z) (r : shr_record) :
  0 < b -> record_ok a b r ->
  round_nearest_even (shr_m r) (loc_of_shr_record r) = rne a b.
Proof.
  intros Hb (Hm & Hr & Hs). destruct r as [m rr ss]. cbn [shr_m shr_r shr_s] in Hm, Hr, Hs.
  pose proof (Z.mod_pos_bound a b Hb) as Bm.
  unfold rne. cbn [shr_m]. subst m rr ss.
  destruct (Z.compare_spec (2 * (a mod b)) b) as [c | c | c];
    destruct (Z.eqb_spec (2 * (a mod b)) b);
    destruct (Z.eqb_spec (a mod b) 0);
    destruct (Z.leb_spec b (2 * (a mod b))); try lia; cbn; try reflexivity.
Qed.

(** ** Rounding to nearest *)

Lemma rne_bounds (a b : Z) : 0 < b -> a / b <= rne a b <= a / b + 1.
Proof.
  intros Hb. unfold rne.
  destruct (2 * (a mod b) ?= b); try destruct (Z.even (a / b)); lia.
Qed.

(** An exact quotient is not moved. *)
Lemma rne_exact (q b : Z) : 0 < b -> rne (q * b) b = q.
Proof.
  intros Hb. unfold rne. rewrite Z.div_mul, Z.mod_mul by lia.
  destruct (Z.compare_spec (2 * 0) b); lia.
Qed.

(** Rounding never crosses an integer. *)
Lemma rne_le (a b k : Z) : 0 < b -> a <= k * b -> rne a b <= k.
Proof.
  intros Hb H. unfold rne.
  pose proof (Z.mod_pos_bound a b Hb) as Bm.
  pose proof (Z.div_mod a b ltac:(lia)) as E.
  set (q := a / b) in *. set (r := a mod b) in *. clearbody q r.
  assert (q <= k) by nia.
  destruct (Z.eq_dec q k) as [-> | N].
  - assert (r = 0) by nia. subst r.
    destruct (Z.compare_spec (2 * 0) b); try lia.
  - destruct (2 * r ?= b); try destruct (Z.even q); lia.
Qed.

Lemma rne_ge (a b k : Z) : 0 < b -> k * b <= a -> k <= rne a b.
Proof.
  intros Hb H. pose proof (rne_bounds a b Hb).
  assert (k <= a / b) by (apply Z.div_le_lower_bound; lia). lia.
Qed.

(** More than half a unit above [k] rounds to above [k]. *)
Lemma rne_gt (a b k : Z) : 0 < b -> (2 * k + 1) * b < 2 * a -> k < rne a b.
Proof.
  intros Hb H. unfold rne.
  pose proof (Z.mod_pos_bound a b Hb) as Bm.
  pose proof (Z.div_mod a b ltac:(lia)) as E.
  set (q := a / b) in *. set (r := a mod b) in *. clearbody q r.
  assert (k <= q) by nia.
  destruct (Z.eq_dec q k) as [-> | N].
  - assert (b < 2 * r) by nia.
    destruct (Z.compare_spec (2 * r) b); lia.
  - destruct (2 * r ?= b); try destruct (Z.even q); lia.
Qed.

Lemma shr_nonpos (r : shr_record) (e n : Z) : n <= 0 -> shr r e n = (r, e).
Proof. destruct n; cbn; trivial; lia. Qed.

Lemma shr_zero (e n : Z) :
  shr_m (fst (shr {| shr_m := 0; shr_r := false; shr_s := false |} e n)) = 0.
Proof.
  destruct (shr_ok 0 1 e n {| shr_m := 0; shr_r := false; shr_s := false |})
    as (r' & E & (Hm & _)); try lia.
  - repeat split.
  - rewrite E. cbn [fst]. rewrite Hm. apply Z.div_0_l.
    assert (0 < 2 ^ Z.max 0 n) by (apply Z.pow_pos_nonneg; lia). lia.
Qed.

Lemma rne_mantissa_bound (a b ex : Z) :
  0 <= a -> 0 < b ->
  0 <= rne a (b * 2 ^ Z.max 0 (fexp prec emax (Zdigits2 (a / b) + ex) - ex)) <= 2 ^ 53.
Proof.
  intros Ha Hb.
  set (d := Zdigits2 (a / b)).
  set (k := Z.max 0 (fexp prec emax (d + ex) - ex)).
  assert (P2 : 0 < 2 ^ k) by (apply Z.pow_pos_nonneg; lia).
  assert (Hq : 0 <= a / b) by (apply Z.div_pos; lia).
  assert (Hd : 0 <= d) by apply Zdigits2_nonneg.
  assert (Hk : d - 53 <= k) by (subst k; rewrite fexp_eq; lia).
  pose proof (rne_bounds a (b * 2 ^ k) ltac:(nia)) as B.
  assert (0 <= a / (b * 2 ^ k)) by (apply Z.div_pos; nia).
  assert (a / (b * 2 ^ k) < 2 ^ 53); [ | lia ].
  rewrite <- Z.div_div by lia.
  apply Z.div_lt_upper_bound; [ lia | ].
  rewrite <- Z.pow_add_r by lia.
  destruct (Z.eq_dec (a / b) 0) as [-> | N].
  - apply Z.pow_pos_nonneg; lia.
  - pose proof (Zdigits2_bounds (a / b) ltac:(lia)) as B'. fold d in B'.
    assert (2 ^ d <= 2 ^ (k + 53)) by (apply Z.pow_le_mono_r; lia). lia.
Qed.

(** The rounding step of every binary64 operation: a non-negative
    fraction [a / b], given by its quotient and the position of its
    remainder and scaled by [2 ^ ex], becomes the nearest binary64
    number. *)
Lemma binary_round_aux_eq (s : bool) (a b ex : Z) :
  0 <= a -> 0 < b ->
  binary_round_aux prec emax s (a / b) ex (loc_of a b) =
  pack s (rne a (b * 2 ^ Z.max 0 (fexp prec emax (Zdigits2 (a / b) + ex) - ex)))
       (ex + Z.max 0 (fexp prec emax (Zdigits2 (a / b) + ex) - ex)).
Proof.
  intros Ha Hb. unfold binary_round_aux, shr_fexp.
  set (d := Zdigits2 (a / b)).
  set (n := fexp prec emax (d + ex) - ex).
  destruct (shr_ok a b ex n (shr_record_of_loc (a / b) (loc_of a b))) as (r1 & E1 & K1);
    trivial. { apply record_ok_of_loc; trivial. }
  rewrite E1. clear E1.
  assert (P2 : 0 < 2 ^ Z.max 0 n) by (apply Z.pow_pos_nonneg; lia).
  rewrite (round_record a (b * 2 ^ Z.max 0 n) r1) by (trivial; nia).
  set (k := Z.max 0 n) in *. set (M := rne a (b * 2 ^ k)).
  assert (Hq : 0 <= a / b) by (apply Z.div_pos; lia).
  assert (Hd : 0 <= d) by apply Zdigits2_nonneg.
  assert (Hk : d - 53 <= k) by (subst k n; rewrite fexp_eq; lia).
  assert (He : -1074 <= ex + k) by (subst k n; rewrite fexp_eq; lia).
  assert (HM : 0 <= M <= 2 ^ 53) by (apply rne_mantissa_bound; trivial).
  destruct (Z.eq_dec M 0) as [Z0' | NZ].
  - rewrite Z0'. cbn [shr_record_of_loc].
    pose proof (shr_zero (ex + k) (fexp prec emax (Zdigits2 0 + (ex + k)) - (ex + k))) as SZ.
    destruct (shr _ _ _) as [r2 e2]. cbn [fst] in SZ. rewrite SZ. reflexivity.
  - destruct (Z.eq_dec M (2 ^ 53)) as [C | NC].
    + rewrite C. cbn [shr_record_of_loc].
      replace (fexp prec emax (Zdigits2 (2 ^ 53) + (ex + k)) - (ex + k)) with 1
        by (rewrite fexp_eq; change (Zdigits2 (2 ^ 53)) with 54; lia).
      cbn [shr iter_pos]. rewrite shr_1_nonneg by (cbv; congruence).
      cbn [shr_m]. change (2 ^ 53 / 2) with (2 ^ 52).
      unfold pack. change (2 ^ 53) with 9007199254740992 at 1.
      cbv iota. rewrite Z.eqb_refl. change (2 ^ 52) with 4503599627370496.
      reflexivity.
    + assert (D : Zdigits2 M <= 53) by (apply Zdigits2_lt_pow; lia).
      rewrite shr_nonpos by (rewrite fexp_eq; lia).
      cbn [shr_record_of_loc shr_m]. unfold pack.
      destruct M as [ | p | p ]; try lia.
      destruct (Z.eqb_spec (Zpos p) (2 ^ 53)); [ lia | reflexivity ].
Qed.

Lemma loc_of_1 (a : Z) : loc_of a 1 = loc_Exact.
Proof. unfold loc_of. rewrite Z.mod_1_r. reflexivity. Qed.

Lemma binary_round_aux_exact (s : bool) (m ex : Z) :
  0 <= m ->
  binary_round_aux prec emax s m ex loc_Exact =
  pack s (rne m (2 ^ Z.max 0 (fexp prec emax (Zdigits2 m + ex) - ex)))
       (ex + Z.max 0 (fexp prec emax (Zdigits2 m + ex) - ex)).
Proof.
  intros Hm. pose proof (binary_round_aux_eq s m 1 ex Hm ltac:(lia)) as H.
  rewrite Z.div_1_r, loc_of_1, Z.mul_1_l in H. exact H.
Qed.

Lemma rne_1 (a : Z) : rne a 1 = a.
Proof. rewrite <- (Z.mul_1_r a) at 1. apply rne_exact. lia. Qed.

(** ** Conversion of integers *)

Lemma iter_xO (n p : positive) : Zpos (Pos.iter xO p n) = Zpos p * 2 ^ Zpos n.
Proof.
  induction n as [ | n IH ] using Pos.peano_ind.
  - cbn [Pos.iter]. change (2 ^ 1) with 2. lia.
  - rewrite Pos.iter_succ, Pos2Z.inj_succ, Z.pow_succ_r by lia.
    rewrite (Pos2Z.inj_xO (Pos.iter xO p n)), IH. ring.
Qed.

Lemma normal_digits (m : positive) : normal m -> Zdigits2 (Zpos m) = 53.
Proof. intros H. apply Zdigits2_unique; [ exact H | lia ]. Qed.

(** Integers below 2^53 convert without rounding, to a normal number. *)
Lemma of_int_small (z : Z) :
  0 < z < 2 ^ 53 ->
  exists m e, of_int z = S754_finite false m e /\ normal m /\
              -52 <= e <= 0 /\ Zpos m = z * 2 ^ (- e) /\ e = Zdigits2 z - 53.
Proof.
  intros Hz. destruct z as [ | p | p ]; try lia.
  unfold of_int, binary_normalize, binary_round.
  pose proof (Zdigits2_bounds (Zpos p) ltac:(lia)) as B.
  pose proof (Zdigits2_pos (Zpos p) ltac:(lia)) as P.
  assert (D : Zdigits2 (Zpos p) <= 53) by (apply Zdigits2_lt_pow; lia).
  cbn [Zdigits2] in B, P, D. set (d := Zpos (digits2_pos p)) in *.
  rewrite fexp_eq. rewrite Z.max_l by lia.
  assert (exists mz, shl_align p 0 (d + 0 - 53) = (mz, d - 53) /\
                     Zpos mz = Zpos p * 2 ^ (53 - d)) as (mz & -> & Hmz).
  { unfold shl_align. destruct (d + 0 - 53 - 0) as [ | q | q ] eqn:Eq; try lia.
    - exists p. replace (d - 53) with 0 by lia. replace (53 - d) with 0 by lia.
      split; [ reflexivity | rewrite Z.pow_0_r; lia ].
    - exists (Pos.iter xO p q). replace (d + 0 - 53) with (d - 53) by lia.
      split; [ reflexivity | ]. rewrite iter_xO. f_equal. f_equal. lia. }
  assert (N : normal mz).
  { assert (E1 : 2 ^ 52 = 2 ^ (d - 1) * 2 ^ (53 - d))
      by (rewrite <- Z.pow_add_r by lia; f_equal; lia).
    assert (E2 : 2 ^ 53 = 2 ^ d * 2 ^ (53 - d))
      by (rewrite <- Z.pow_add_r by lia; f_equal; lia).
    assert (0 < 2 ^ (53 - d)) by (apply Z.pow_pos_nonneg; lia).
    unfold normal. rewrite Hmz, E1, E2. pnia. }
  rewrite binary_round_aux_exact by lia.
  rewrite (normal_digits mz N), fexp_eq.
  replace (Z.max 0 (Z.max (53 + (d - 53) - 53) (-1074) - (d - 53))) with 0 by lia.
  rewrite Z.pow_0_r, rne_1, Z.add_0_r.
  exists mz, (d - 53). unfold pack.
  destruct (Z.eqb_spec (Zpos mz) (2 ^ 53)) as [C | C]; [ unfold normal in N; lia | ].
  destruct (Z.leb_spec (d - 53) (emax - prec)) as [L | L];
    [ | unfold emax, prec in L; lia ].
  repeat split; try lia; try apply N.
  rewrite Hmz. f_equal. f_equal. lia.
Qed.

(** Larger integers round to a normal number that is at least 2^53. *)
Lemma of_int_large (z : Z) :
  2 ^ 53 <= z < 2 ^ 64 ->
  exists m e, of_int z = S754_finite false m e /\ normal m /\
              1 <= e <= 12 /\ 2 ^ 53 <= Zpos m * 2 ^ e.
Proof.
  intros Hz. destruct z as [ | p | p ]; try lia.
  unfold of_int, binary_normalize, binary_round.
  pose proof (Zdigits2_bounds (Zpos p) ltac:(lia)) as B.
  assert (D : Zdigits2 (Zpos p) <= 64) by (apply Zdigits2_lt_pow; lia).
  assert (D' : 54 <= Zdigits2 (Zpos p)).
  { destruct (Z_lt_le_dec (Zdigits2 (Zpos p)) 54); [ | lia ].
    assert (2 ^ Zdigits2 (Zpos p) <= 2 ^ 53) by (apply Z.pow_le_mono_r; lia). lia. }
  cbn [Zdigits2] in B, D, D'. set (d := Zpos (digits2_pos p)) in *.
  rewrite fexp_eq. rewrite Z.max_l by lia.
  assert (shl_align p 0 (d + 0 - 53) = (p, 0)) as ->.
  { unfold shl_align. destruct (d + 0 - 53 - 0) as [ | q | q ] eqn:Eq; try lia; reflexivity. }
  rewrite binary_round_aux_exact by lia.
  cbn [Zdigits2]. fold d. rewrite fexp_eq.
  replace (Z.max 0 (Z.max (d + 0 - 53) (-1074) - 0)) with (d - 53) by lia.
  rewrite Z.add_0_l.
  set (k := d - 53) in *.
  assert (K : 0 < 2 ^ k) by (apply Z.pow_pos_nonneg; lia).
  assert (E : 2 ^ (d - 1) = 2 ^ 52 * 2 ^ k).
  { rewrite <- Z.pow_add_r by lia. f_equal. lia. }
  assert (E' : 2 ^ d = 2 ^ 53 * 2 ^ k).
  { rewrite <- Z.pow_add_r by lia. f_equal. lia. }
  assert (R : 2 ^ 52 <= rne (Zpos p) (2 ^ k) <= 2 ^ 53).
  { split; [ apply rne_ge | apply rne_le ]; lia. }
  set (M := rne (Zpos p) (2 ^ k)) in *. clearbody M.
  unfold pack. destruct M as [ | q | q ]; try lia.
  destruct (Z.eqb_spec (Zpos q) (2 ^ 53)) as [C | C].
  - destruct (Z.leb_spec (k + 1) (emax - prec)) as [L | L];
      [ | unfold emax, prec in L; lia ].
    exists (Z.to_pos (2 ^ 52)), (k + 1). repeat split; try lia.
    rewrite Z.pow_add_r by lia. change (Zpos (Z.to_pos (2 ^ 52))) with (2 ^ 52).
    change (2 ^ 1) with 2. lia.
  - destruct (Z.leb_spec k (emax - prec)) as [L | L];
      [ | unfold emax, prec in L; lia ].
    exists q, k. repeat split; try lia.
Qed.

(** ** Back to integers *)

Lemma in_int_small (k : Z) :
  0 <= k <= 2 ^ 53 -> (GoInt.min_int <=? k) && (k <=? GoInt.max_int) = true.
Proof.
  intros H. apply andb_true_intro. unfold GoInt.min_int, GoInt.max_int.
  split; apply Z.leb_le; lia.
Qed.

Lemma to_int_finite (m : positive) (e : Z) :
  Zpos m <= 2 ^ 53 -> e <= 0 ->
  to_int (S754_finite false m e) = Some (Zpos m / 2 ^ (- e)).
Proof.
  intros Hm He. unfold to_int, smant, cond_Zopp.
  assert (P : 0 < 2 ^ (- e)) by (apply Z.pow_pos_nonneg; lia).
  destruct (Z.leb_spec 0 e) as [L | L].
  - replace e with 0 by lia. cbn [Z.opp]. rewrite Z.pow_0_r, Z.mul_1_r, Z.div_1_r.
    rewrite in_int_small by lia. reflexivity.
  - rewrite Z.quot_div_nonneg by lia.
    assert (0 <= Zpos m / 2 ^ (- e) <= Zpos m).
    { split; [ apply Z.div_pos; lia | ].
      apply Z.div_le_upper_bound; [ lia | nia ]. }
    rewrite in_int_small by lia. reflexivity.
Qed.

Lemma to_int_of_int (k : Z) : 0 <= k < 2 ^ 53 -> to_int (of_int k) = Some k.
Proof.
  intros H. destruct (Z.eq_dec k 0) as [-> | N]; [ reflexivity | ].
  destruct (of_int_small k ltac:(lia)) as (m & e & -> & Nm & He & Hm & _).
  rewrite to_int_finite by (unfold normal in Nm; lia).
  rewrite Hm, Z.div_mul; [ reflexivity | ].
  assert (0 < 2 ^ (- e)) by (apply Z.pow_pos_nonneg; lia). lia.
Qed.

Lemma ceil_div_bounds (a b : Z) :
  0 < b -> (ceil_div a b - 1) * b < a <= ceil_div a b * b.
Proof.
  intros Hb. unfold ceil_div.
  pose proof (Z.div_mod (- a) b ltac:(lia)).
  pose proof (Z.mod_pos_bound (- a) b Hb). nia.
Qed.

Lemma ceil_div_unique (a b c : Z) :
  0 < b -> (c - 1) * b < a <= c * b -> ceil_div a b = c.
Proof.
  intros Hb H. pose proof (ceil_div_bounds a b Hb). nia.
Qed.

Lemma to_int_Ceil_finite (m : positive) (e : Z) :
  Zpos m <= 2 ^ 53 -> e <= 0 ->
  to_int (Ceil (S754_finite false m e)) = Some (ceil_div (Zpos m) (2 ^ (- e))).
Proof.
  intros Hm He. unfold Ceil.
  assert (P : 0 < 2 ^ (- e)) by (apply Z.pow_pos_nonneg; lia).
  destruct (Z.leb_spec 0 e) as [L | L].
  - rewrite to_int_finite by trivial. f_equal.
    replace e with 0 by lia. cbn [Z.opp]. rewrite Z.pow_0_r, Z.div_1_r.
    unfold ceil_div. rewrite Z.div_1_r. lia.
  - unfold smant, cond_Zopp. fold (ceil_div (Zpos m) (2 ^ (- e))).
    pose proof (ceil_div_bounds (Zpos m) (2 ^ (- e)) P) as B.
    assert (1 <= 2 ^ (- e)) by lia.
    assert (0 < ceil_div (Zpos m) (2 ^ (- e)) <= Zpos m) by nia.
    destruct (Z.eqb_spec (ceil_div (Zpos m) (2 ^ (- e))) 0) as [Z0' | NZ]; [ lia | ].
    assert (2 <= 2 ^ (- e)).
    { change 2 with (2 ^ 1) at 1. apply Z.pow_le_mono_r; lia. }
    apply to_int_of_int. nia.
Qed.

Lemma to_int_Floor_finite (m : positive) (e : Z) :
  Zpos m <= 2 ^ 53 -> e <= 0 ->
  to_int (Floor (S754_finite false m e)) = Some (Zpos m / 2 ^ (- e)).
Proof.
  intros Hm He. unfold Floor.
  assert (P : 0 < 2 ^ (- e)) by (apply Z.pow_pos_nonneg; lia).
  destruct (Z.leb_spec 0 e) as [L | L].
  - apply to_int_finite; trivial.
  - unfold smant, cond_Zopp.
    assert (2 <= 2 ^ (- e)).
    { change 2 with (2 ^ 1) at 1. apply Z.pow_le_mono_r; lia. }
    assert (0 <= Zpos m / 2 ^ (- e) < 2 ^ 53).
    { split; [ apply Z.div_pos; lia | ].
      apply Z.div_lt_upper_bound; [ lia | nia ]. }
    destruct (Z.eqb_spec (Zpos m / 2 ^ (- e)) 0) as [-> | NZ]; [ reflexivity | ].
    apply to_int_of_int. lia.
Qed.

(** A rounded mantissa [2 ^ 53] is stored as [2 ^ 52] one exponent up. *)
Lemma pack_cases (M E : Z) :
  0 <= M <= 2 ^ 53 -> E <= 0 ->
  M = 0 /\ pack false M E = S754_zero false \/
  exists m e, pack false M E = S754_finite false m e /\
              0 < M /\ Zpos m <= 2 ^ 53 /\
              (e <= 0 /\ Zpos m * 2 ^ (- E) = M * 2 ^ (- e) \/
               M = 2 ^ 53 /\ E = 0 /\ e = 1 /\ Zpos m = 2 ^ 52).
Proof.
  intros HM HE. unfold pack. destruct M as [ | p | p ]; try lia.
  - left. split; reflexivity.
  - right. destruct (Z.eqb_spec (Zpos p) (2 ^ 53)) as [C | C].
    + destruct (Z.leb_spec (E + 1) (emax - prec)) as [L | L];
        [ | unfold emax, prec in L; lia ].
      exists (Z.to_pos (2 ^ 52)), (E + 1).
      change (Zpos (Z.to_pos (2 ^ 52))) with (2 ^ 52).
      repeat split; try lia.
      destruct (Z.eq_dec E 0) as [-> | N]; [ right; repeat split; lia | ].
      left. split; [ lia | ]. rewrite C.
      replace (- E) with (1 + - (E + 1)) by lia.
      rewrite Z.pow_add_r by lia. change (2 ^ 1) with 2.
      change (2 ^ 53) with (2 * 2 ^ 52). ring.
    + destruct (Z.leb_spec E (emax - prec)) as [L | L];
        [ | unfold emax, prec in L; lia ].
      exists p, E. repeat split; try lia.
Qed.

Lemma to_int_Ceil_pack (M E : Z) :
  0 <= M <= 2 ^ 53 -> E <= 0 ->
  to_int (Ceil (pack false M E)) = Some (ceil_div M (2 ^ (- E))).
Proof.
  intros HM HE.
  assert (P : 0 < 2 ^ (- E)) by (apply Z.pow_pos_nonneg; lia).
  destruct (pack_cases M E HM HE) as [(-> & ->) | (m & e & -> & H0 & Hm & C)].
  - cbn [Ceil to_int]. unfold ceil_div. rewrite Z.div_0_l by lia. reflexivity.
  - destruct C as [(He & Hv) | (-> & -> & -> & Hm')].
    + rewrite to_int_Ceil_finite by trivial. f_equal.
      assert (P' : 0 < 2 ^ (- e)) by (apply Z.pow_pos_nonneg; lia).
      pose proof (ceil_div_bounds (Zpos m) (2 ^ (- e)) P') as B.
      symmetry. apply ceil_div_unique; trivial. pnia.
    + unfold Ceil. cbn [Z.leb Z.compare]. unfold to_int, smant, cond_Zopp.
      cbn [Z.leb Z.compare]. rewrite Hm'. reflexivity.
Qed.

Lemma to_int_Floor_pack (M E : Z) :
  0 <= M <= 2 ^ 53 -> E <= 0 ->
  to_int (Floor (pack false M E)) = Some (M / 2 ^ (- E)).
Proof.
  intros HM HE.
  assert (P : 0 < 2 ^ (- E)) by (apply Z.pow_pos_nonneg; lia).
  destruct (pack_cases M E HM HE) as [(-> & ->) | (m & e & -> & H0 & Hm & C)].
  - cbn [Floor to_int]. rewrite Z.div_0_l by lia. reflexivity.
  - destruct C as [(He & Hv) | (-> & -> & -> & Hm')].
    + rewrite to_int_Floor_finite by trivial. f_equal.
      assert (P' : 0 < 2 ^ (- e)) by (apply Z.pow_pos_nonneg; lia).
      pose proof (Z.div_mod (Zpos m) (2 ^ (- e)) ltac:(lia)) as D1.
      pose proof (Z.mod_pos_bound (Zpos m) (2 ^ (- e)) P') as D2.
      apply (Z.div_unique_pos _ _ _ (M - Zpos m / 2 ^ (- e) * 2 ^ (- E)));
        [ | ring ].
      set (q := Zpos m / 2 ^ (- e)) in *. set (r := Zpos m mod 2 ^ (- e)) in *.
      clearbody q r. pnia.
    + unfold Floor. cbn [Z.leb Z.compare]. unfold to_int, smant, cond_Zopp.
      cbn [Z.leb Z.compare]. rewrite Hm'. reflexivity.
Qed.

(** ** Division *)

Lemma new_location_loc_of (a b : Z) :
  0 < b -> new_location b (a mod b) = loc_of a b.
Proof.
  intros Hb. pose proof (Z.mod_pos_bound a b Hb) as Bm.
  unfold new_location, loc_of. set (r := a mod b) in *. clearbody r.
  destruct (Z.even b) eqn:Ev.
  - reflexivity.
  - unfold new_location_odd. destruct (Z.eqb_spec r 0); [ reflexivity | ].
    assert (Od : Z.odd b = true) by (rewrite <- Z.negb_even, Ev; reflexivity).
    apply Z.odd_spec in Od. destruct Od as [c Hc].
    destruct (Z.compare_spec (2 * r + 1) b); destruct (Z.compare_spec (2 * r) b);
      try reflexivity; lia.
Qed.

(** The quotient of two normal numbers, before any further range
    consideration: the exact fraction rounded at the exponent its first
    53 bits call for. *)
Lemma div_normal (mx my : positive) (ex ey : Z) :
  normal mx -> normal my -> -500 <= ex - ey <= 500 ->
  exists k, (k = 0 \/ k = 1) /\
    0 <= rne (Zpos mx * 2 ^ 53) (Zpos my * 2 ^ k) <= 2 ^ 53 /\
    div (S754_finite false mx ex) (S754_finite false my ey) =
    pack false (rne (Zpos mx * 2 ^ 53) (Zpos my * 2 ^ k)) (ex - ey - 53 + k).
Proof.
  intros Nx Ny He. unfold div, SFdiv, SFdiv_core_binary.
  rewrite (normal_digits mx Nx), (normal_digits my Ny), fexp_eq.
  replace (Z.min (Z.max (53 + ex - (53 + ey) - 53) (-1074)) (ex - ey))
    with (ex - ey - 53) by lia.
  replace (ex - ey - (ex - ey - 53)) with 53 by lia.
  cbv iota. rewrite Z.shiftl_mul_pow2 by lia.
  set (A := Zpos mx * 2 ^ 53).
  assert (HA : 0 <= A) by (subst A; lia).
  pose proof (Z.div_mod A (Zpos my) ltac:(lia)) as DM.
  pose proof (Z.mod_pos_bound A (Zpos my) ltac:(lia)) as Bm.
  unfold Z.div, Z.modulo in DM, Bm.
  destruct (Z.div_eucl A (Zpos my)) as [q r] eqn:Eq.
  assert (Hq : q = A / Zpos my) by (unfold Z.div; rewrite Eq; reflexivity).
  assert (Hr : r = A mod Zpos my) by (unfold Z.modulo; rewrite Eq; reflexivity).
  rewrite Hr, new_location_loc_of, Hq by lia.
  rewrite binary_round_aux_eq by lia.
  pose proof (rne_mantissa_bound A (Zpos my) (ex - ey - 53) HA ltac:(lia)) as MB.
  revert MB. rewrite <- Hq, fexp_eq. intros MB.
  unfold normal in Nx, Ny.
  assert (Q : 0 <= q < 2 ^ 54).
  { split; [ subst A; nia | ].
    change (2 ^ 54) with (2 * 2 ^ 53).
    change (2 ^ 53) with (2 * 2 ^ 52) in Nx. subst A. nia. }
  assert (D : 0 <= Zdigits2 q <= 54).
  { split; [ apply Zdigits2_nonneg | apply Zdigits2_lt_pow; lia ]. }
  exists (Z.max 0 (Z.max (Zdigits2 q + (ex - ey - 53) - 53) (-1074) - (ex - ey - 53))).
  split; [ lia | split; [ exact MB | reflexivity ] ].
Qed.

(** [int(math.Ceil(float64(p) / float64(m)))] is the integer ceiling of
    [p / m] for every backlog below 2^53 and every positive [int] divisor. *)
Lemma to_int_Ceil_div (p m : Z) :
  0 <= p < 2 ^ 53 -> 0 < m < 2 ^ 64 ->
  to_int (Ceil (div (of_int p) (of_int m))) = Some (ceil_div p m).
Proof.
  intros Hp Hm.
  destruct (Z.eq_dec p 0) as [-> | Np].
  - destruct (Z_lt_le_dec m (2 ^ 53)) as [S | L].
    + destruct (of_int_small m ltac:(lia)) as (my & ey & -> & _).
      reflexivity.
    + destruct (of_int_large m ltac:(lia)) as (my & ey & -> & _).
      reflexivity.
  - destruct (of_int_small p ltac:(lia)) as (mx & ex & -> & Nx & Hex & Hmx & _).
    assert (Px : 0 < 2 ^ (- ex)) by (apply Z.pow_pos_nonneg; lia).
    assert (W : 2 ^ (53 - ex) = 2 ^ 53 * 2 ^ (- ex)).
    { rewrite <- Z.pow_add_r by lia. f_equal; lia. }
    destruct (Z_lt_le_dec m (2 ^ 53)) as [S | L].
    + destruct (of_int_small m ltac:(lia)) as (my & ey & -> & Ny & Hey & Hmy & _).
      destruct (div_normal mx my ex ey Nx Ny ltac:(lia)) as (k & Hk & HR & ->).
      set (E := ex - ey - 53 + k).
      assert (HE : E <= 0) by (subst E; lia).
      assert (Py : 0 < 2 ^ (- ey)) by (apply Z.pow_pos_nonneg; lia).
      assert (Pk : 0 < 2 ^ k) by (apply Z.pow_pos_nonneg; lia).
      assert (PU : 0 < 2 ^ (- E)) by (apply Z.pow_pos_nonneg; lia).
      (* both the numerator and the grid are multiples of [2 ^ (53 - ex)] *)
      assert (G : Zpos my * 2 ^ k * 2 ^ (- E) = m * 2 ^ (53 - ex)).
      { rewrite Hmy, <- !Z.mul_assoc, <- !Z.pow_add_r by lia. do 2 f_equal; subst E; lia. }
      assert (A : Zpos mx * 2 ^ 53 = p * 2 ^ (53 - ex)) by (rewrite Hmx, W; ring).
      assert (K2 : 2 ^ k <= 2) by (destruct Hk as [-> | ->]; cbv; congruence).
      unfold normal in Nx, Ny.
      set (D := Zpos my * 2 ^ k) in *.
      set (R := rne (Zpos mx * 2 ^ 53) D).
      assert (HD : 0 < D) by (subst D; nia).
      pose proof (ceil_div_bounds p m ltac:(lia)) as CB.
      set (c := ceil_div p m) in *.
      assert (Hc : 0 < c) by nia.
      assert (UP : R <= c * 2 ^ (- E)).
      { apply rne_le; trivial. rewrite A.
        replace (c * 2 ^ (- E) * D) with (c * (D * 2 ^ (- E))) by ring.
        rewrite G. pnia. }
      assert (LO : (c - 1) * 2 ^ (- E) < R).
      { apply rne_gt; trivial. rewrite A.
        assert (D < 2 * 2 ^ (53 - ex)).
        { rewrite W. subst D. change (2 ^ 53) with (2 * 2 ^ 52) in *. pnia. }
        replace ((2 * ((c - 1) * 2 ^ (- E)) + 1) * D)
          with (2 * (c - 1) * (D * 2 ^ (- E)) + D) by ring.
        rewrite G. pnia. }
      rewrite to_int_Ceil_pack by trivial. f_equal.
      apply ceil_div_unique; trivial. lia.
    + destruct (of_int_large m ltac:(lia)) as (my & ey & -> & Ny & Hey & Hmy).
      destruct (div_normal mx my ex ey Nx Ny ltac:(lia)) as (k & Hk & HR & ->).
      set (E := ex - ey - 53 + k).
      assert (HE : E <= 0) by (subst E; lia).
      assert (Py : 0 < 2 ^ ey) by (apply Z.pow_pos_nonneg; lia).
      assert (Pk : 0 < 2 ^ k) by (apply Z.pow_pos_nonneg; lia).
      assert (PU : 0 < 2 ^ (- E)) by (apply Z.pow_pos_nonneg; lia).
      assert (G : Zpos my * 2 ^ k * 2 ^ (- E) = Zpos my * 2 ^ ey * 2 ^ (53 - ex)).
      { rewrite <- !Z.mul_assoc, <- !Z.pow_add_r by lia. do 2 f_equal; subst E; lia. }
      assert (A : Zpos mx * 2 ^ 53 = p * 2 ^ (53 - ex)) by (rewrite Hmx, W; ring).
      assert (K2 : 2 ^ k <= 2) by (destruct Hk as [-> | ->]; cbv; congruence).
      unfold normal in Nx, Ny.
      set (D := Zpos my * 2 ^ k) in *.
      set (R := rne (Zpos mx * 2 ^ 53) D).
      assert (HD : 0 < D) by (subst D; nia).
      assert (UP : R <= 1 * 2 ^ (- E)).
      { apply rne_le; trivial. rewrite A.
        replace (1 * 2 ^ (- E) * D) with (D * 2 ^ (- E)) by ring.
        rewrite G. pnia. }
      assert (LO : 1 <= R).
      { apply rne_ge; trivial. subst D.
        change (2 ^ 53) with (2 * 2 ^ 52) in *. pnia. }
      rewrite to_int_Ceil_pack by trivial. f_equal.
      rewrite (ceil_div_unique p m 1) by lia.
      apply ceil_div_unique; trivial. lia.
Qed.

(** ** Multiplication *)

Lemma mul_finite (sx sy : bool) (mx my : positive) (ex ey : Z) :
  exists k, k = Z.max 0 (fexp prec emax (Zdigits2 (Zpos mx * Zpos my) + (ex + ey)) - (ex + ey)) /\
    0 <= rne (Zpos mx * Zpos my) (2 ^ k) <= 2 ^ 53 /\
    mul (S754_finite sx mx ex) (S754_finite sy my ey) =
    pack (xorb sx sy) (rne (Zpos mx * Zpos my) (2 ^ k)) (ex + ey + k).
Proof.
  eexists. split; [ reflexivity | ].
  unfold mul, SFmul. rewrite Pos2Z.inj_mul.
  rewrite binary_round_aux_exact by lia. split; [ | reflexivity ].
  pose proof (rne_mantissa_bound (Zpos mx * Zpos my) 1 (ex + ey) ltac:(lia) ltac:(lia)) as B.
  rewrite Z.div_1_r, Z.mul_1_l in B. exact B.
Qed.

Lemma one_eq : one = S754_finite false (Z.to_pos (2 ^ 52)) (-52).
Proof. reflexivity. Qed.

(** What [0 <= f <= 1] means for a finite binary64 number. *)
Lemma leb_one_finite (s : bool) (m : positive) (e : Z) :
  valid (S754_finite s m e) = true ->
  leb zero (S754_finite s m e) = true ->
  leb (S754_finite s m e) one = true ->
  s = false /\ e <= -52 /\ Zpos m <= 2 ^ (- e).
Proof.
  intros V L0 L1. destruct s; [ discriminate | ]. split; [ reflexivity | ].
  unfold valid, valid_binary, SpecFloat.bounded, canonical_mantissa in V.
  apply andb_prop in V. destruct V as [V _]. apply Z.eqb_eq in V.
  rewrite fexp_eq in V.
  pose proof (digits2_pos_bounds m) as B.
  rewrite one_eq in L1.
  assert (C : Zpos (Z.to_pos (2 ^ 52)) = 2 ^ 52) by reflexivity.
  set (c := Z.to_pos (2 ^ 52)) in *. clearbody c.
  unfold leb, SFleb, SFcompare in L1.
  destruct (Z.compare_spec e (-52)) as [-> | Lt | Gt']; try discriminate.
  - split; [ lia | ]. change (- -52) with 52.
    change (Pos.compare_cont Eq m c) with (Pos.compare m c) in L1.
    destruct (Pos.compare_spec m c) as [-> | Hlt | Hgt]; try discriminate; lia.
  - split; [ lia | ].
    assert (Zpos (digits2_pos m) <= 53) by lia.
    assert (2 ^ Zpos (digits2_pos m) <= 2 ^ 53) by (apply Z.pow_le_mono_r; lia).
    assert (2 ^ 53 <= 2 ^ (- e)) by (apply Z.pow_le_mono_r; lia). lia.
Qed.

(** Damping by a factor between 0 and 1 keeps between nothing and the
    whole gap. *)
Lemma to_int_Floor_mul_unit (g : Z) (f : float64) :
  0 < g < 2 ^ 53 ->
  valid f = true -> leb zero f = true -> leb f one = true ->
  exists d, to_int (Floor (mul (of_int g) f)) = Some d /\ 0 <= d <= g.
Proof.
  intros Hg V L0 L1.
  destruct (of_int_small g Hg) as (mx & ex & -> & Nx & Hex & Hmx & _).
  destruct f as [s | s | | s mf ef]; try discriminate.
  - exists 0. split; [ reflexivity | lia ].
  - destruct s; discriminate.
  - destruct (leb_one_finite s mf ef V L0 L1) as (-> & He & Hm).
    destruct (mul_finite false false mx mf ex ef) as (k & Hk & B & ->).
    cbn [xorb]. rewrite fexp_eq in Hk.
    set (A := Zpos mx * Zpos mf) in *.
    unfold normal in Nx.
    assert (Px : 0 < 2 ^ (- ex)) by (apply Z.pow_pos_nonneg; lia).
    assert (Pf : 0 < 2 ^ (- ef)) by (apply Z.pow_pos_nonneg; lia).
    assert (HA : 0 < A < 2 ^ (53 - ef)).
    { replace (53 - ef) with (53 + - ef) by lia. rewrite Z.pow_add_r by lia.
      subst A. split; nia. }
    assert (DA : Zdigits2 A <= 53 - ef) by (apply Zdigits2_lt_pow; lia).
    assert (HE : ex + ef + k <= 0) by lia.
    assert (Hk0 : 0 <= k) by lia.
    assert (Pk : 0 < 2 ^ k) by (apply Z.pow_pos_nonneg; lia).
    assert (PU : 0 < 2 ^ (- (ex + ef + k))) by (apply Z.pow_pos_nonneg; lia).
    rewrite to_int_Floor_pack by trivial.
    eexists. split; [ reflexivity | ].
    split; [ apply Z.div_pos; lia | ].
    apply Z.div_le_upper_bound; [ lia | ].
    assert (R : rne A (2 ^ k) <= g * 2 ^ (- (ex + ef + k))); [ | lia ].
    apply rne_le; trivial.
    rewrite <- Z.mul_assoc, <- Z.pow_add_r by lia.
    replace (- (ex + ef + k) + k) with (- ex + - ef) by lia.
    rewrite Z.pow_add_r, Z.mul_assoc, <- Hmx by lia.
    subst A. nia.
Qed.

(** Damping by 1 keeps the whole gap. *)
Lemma to_int_Floor_mul_one (g : Z) :
  0 < g < 2 ^ 53 -> to_int (Floor (mul (of_int g) one)) = Some g.
Proof.
  intros Hg.
  destruct (of_int_small g Hg) as (mx & ex & -> & Nx & Hex & Hmx & _).
  rewrite one_eq.
  destruct (mul_finite false false mx (Z.to_pos (2 ^ 52)) ex (-52)) as (k & Hk & B & ->).
  cbn [xorb]. change (Zpos (Z.to_pos (2 ^ 52))) with (2 ^ 52) in *.
  unfold normal in Nx.
  assert (D : Zdigits2 (Zpos mx * 2 ^ 52) = 105).
  { apply Zdigits2_unique; [ | lia ].
    change (2 ^ (105 - 1)) with (2 ^ 52 * 2 ^ 52).
    change (2 ^ 105) with (2 ^ 53 * 2 ^ 52). lia. }
  rewrite D, fexp_eq in Hk. assert (k = 52) as -> by lia.
  rewrite rne_exact by lia.
  assert (Px : 0 < 2 ^ (- ex)) by (apply Z.pow_pos_nonneg; lia).
  rewrite to_int_Floor_pack by lia.
  replace (- (ex + -52 + 52)) with (- ex) by lia.
  rewrite Hmx, Z.div_mul by lia. reflexivity.
Qed.

(** Damping by zero keeps nothing. *)
Lemma to_int_Floor_mul_zero (g : Z) (s : bool) :
  0 < g < 2 ^ 53 -> to_int (Floor (mul (of_int g) (S754_zero s))) = Some 0.
Proof.
  intros Hg.
  destruct (of_int_small g Hg) as (mx & ex & -> & _). reflexivity.
Qed.




(** ** The pieces of the decision *)

Lemma wrap_id (z : Z) : GoInt.min_int <= z <= GoInt.max_int -> GoInt.wrap z = z.
Proof.
  unfold GoInt.min_int, GoInt.max_int, GoInt.wrap. intros H.
  rewrite Z.mod_small; lia.
Qed.

Lemma rawReplicas_ceil (config : Config) (p : Z) :
  0 <= p < 2 ^ 53 -> 0 < MsgPerPod config <= GoInt.max_int ->
  rawReplicas config p = Some (ceil_div p (MsgPerPod config)).
Proof.
  intros Hp Hm. unfold rawReplicas. apply to_int_Ceil_div; trivial.
  unfold GoInt.max_int in Hm. lia.
Qed.

Lemma boundReplicas_min_max (config : Config) (r : Z) :
  boundReplicas config r = Z.min (MaxPods config) (Z.max (MinPods config) r).
Proof.
  unfold boundReplicas.
  destruct (Z.ltb_spec r (MinPods config));
    destruct (Z.ltb_spec (MaxPods config) (MinPods config));
    destruct (Z.ltb_spec (MaxPods config) r); lia.
Qed.

(** The two bound checks keep the order of what they are given. *)
Lemma boundReplicas_mono (config : Config) (r1 r2 : Z) :
  r1 <= r2 -> boundReplicas config r1 <= boundReplicas config r2.
Proof. intros H. rewrite !boundReplicas_min_max. lia. Qed.

(** The scale sent by an apply call holds the target itself when the
    target is an [int32]. *)
Lemma wrap32_id (z : Z) :
  GoInt.min_int32 <= z <= GoInt.max_int32 -> GoInt.wrap32 z = z.
Proof.
  unfold GoInt.min_int32, GoInt.max_int32, GoInt.wrap32. intros H.
  rewrite Z.mod_small; lia.
Qed.

Lemma ceil_div_mono (a1 a2 b : Z) :
  0 < b -> a1 <= a2 -> ceil_div a1 b <= ceil_div a2 b.
Proof.
  intros Hb H. unfold ceil_div.
  assert (- a2 / b <= - a1 / b) by (apply Z.div_le_mono; lia). lia.
Qed.

Lemma ceil_div_nonneg (a b : Z) : 0 < b -> 0 <= a -> 0 <= ceil_div a b.
Proof.
  intros Hb Ha. pose proof (ceil_div_bounds a b Hb). nia.
Qed.

Lemma bounded_eq (config : Config) (p : Z) :
  0 <= p < 2 ^ 53 -> 0 < MsgPerPod config <= GoInt.max_int ->
  boundedReplicas config p =
  Some (Z.min (MaxPods config) (Z.max (MinPods config) (ceil_div p (MsgPerPod config)))).
Proof.
  intros Hp Hm. unfold boundedReplicas. rewrite rawReplicas_ceil by trivial.
  cbn [option_map]. rewrite boundReplicas_min_max. reflexivity.
Qed.

Lemma decide_bounded (config : Config) (p cur b : Z) :
  boundedReplicas config p = Some b ->
  decide config p cur = dampReplicas config cur b.
Proof.
  unfold boundedReplicas, decide. destruct (rawReplicas config p); cbn; congruence.
Qed.

Lemma dampReplicas_grow (config : Config) (cur b : Z) :
  cur <= b -> dampReplicas config cur b = Some b.
Proof.
  intros H. unfold dampReplicas.
  destruct (Z.ltb_spec b cur); [ lia | reflexivity ].
Qed.

Lemma dampReplicas_unit (config : Config) (cur b : Z) :
  0 <= b < cur -> cur <= GoInt.max_int32 ->
  valid (ScaleFactor config) = true ->
  leb zero (ScaleFactor config) = true -> leb (ScaleFactor config) one = true ->
  exists t, dampReplicas config cur b = Some t /\ b <= t <= cur.
Proof.
  intros Hb Hc V L0 L1. unfold dampReplicas, GoInt.sub, GoInt.add.
  unfold GoInt.max_int32 in *.
  destruct (Z.ltb_spec b cur); [ | lia ].
  rewrite wrap_id by (unfold GoInt.min_int, GoInt.max_int; lia).
  destruct (to_int_Floor_mul_unit (cur - b) (ScaleFactor config)) as (d & -> & Hd);
    trivial; [ lia | ].
  cbn [bind]. rewrite wrap_id by (unfold GoInt.min_int, GoInt.max_int; lia).
  eexists. split; [ reflexivity | lia ].
Qed.


(** ** One iteration *)

Lemma updates_app (a b : list Event) : updates (a ++ b) = updates a ++ updates b.
Proof. apply filter_app. Qed.

(** Where the language defines the conversions, every implementation
    computes the defined value. *)
Lemma to_int_impl_defined (impl : float64 -> Z) (x : float64) (v : Z) :
  to_int x = Some v -> to_int_impl impl x = v.
Proof. intros H. unfold to_int_impl. rewrite H. reflexivity. Qed.

Lemma rawReplicasOn_defined (impl : float64 -> Z) (config : Config) (p r : Z) :
  rawReplicas config p = Some r -> rawReplicasOn impl config p = r.
Proof. apply to_int_impl_defined. Qed.

Lemma dampReplicasOn_defined (impl : float64 -> Z) (config : Config) (cur b t : Z) :
  dampReplicas config cur b = Some t -> dampReplicasOn impl config cur b = t.
Proof.
  unfold dampReplicas, dampReplicasOn. destruct (b <? cur); [ | congruence ].
  destruct (to_int _) as [ d | ] eqn:E; [ | discriminate ].
  cbn [bind]. intros [= <-]. rewrite (to_int_impl_defined impl _ d E). reflexivity.
Qed.

Lemma decideOn_defined (impl : float64 -> Z) (config : Config) (p cur t : Z) :
  decide config p cur = Some t -> decideOn impl config p cur = t.
Proof.
  unfold decide, decideOn.
  destruct (rawReplicas config p) as [ r | ] eqn:R; [ | discriminate ].
  cbn [bind]. rewrite (rawReplicasOn_defined impl config p r R).
  apply dampReplicasOn_defined.
Qed.

(** The apply calls of an iteration whose two reads succeed. *)
Lemma tick_updates (config : Config) (debug : bool) (c : Collaborators)
    (queue : Queue) (currentScale : Scale) :
  QueueInspect c (QueueName config) = Ok queue ->
  GetScale c (Namespace config) (Deployment config) = Ok currentScale ->
  updates (fst (tick config debug c)) =
  if decideOn (Convert c) config (Messages queue) (Replicas currentScale)
     =? Replicas currentScale
  then []
  else [apply_call config currentScale
          (decideOn (Convert c) config (Messages queue) (Replicas currentScale))].
Proof.
  intros Hq Hs. unfold tick, decideOn. rewrite Hq, Hs.
  set (r := boundReplicas config (rawReplicasOn (Convert c) config (Messages queue))).
  set (t := dampReplicasOn (Convert c) config (Replicas currentScale) r).
  destruct (Z.eqb_spec t (Replicas currentScale)); cbn [negb].
  - cbn [fst]. rewrite !updates_app. destruct debug;
      destruct (r <? Replicas currentScale); reflexivity.
  - destruct (UpdateScale c _ _ _); cbn [fst]; rewrite !updates_app;
      destruct debug; destruct (r <? Replicas currentScale); reflexivity.
Qed.

(** The same where the language defines the decision. *)
Lemma tick_updates_defined (config : Config) (debug : bool) (c : Collaborators)
    (queue : Queue) (currentScale : Scale) (target : Z) :
  QueueInspect c (QueueName config) = Ok queue ->
  GetScale c (Namespace config) (Deployment config) = Ok currentScale ->
  decide config (Messages queue) (Replicas currentScale) = Some target ->
  updates (fst (tick config debug c)) =
  if target =? Replicas currentScale then []
  else [apply_call config currentScale target].
Proof.
  intros Hq Hs D.
  rewrite (tick_updates config debug c queue currentScale Hq Hs).
  rewrite (decideOn_defined (Convert c) _ _ _ _ D). reflexivity.
Qed.

(** An iteration whose reads fail issues no apply call. *)
Lemma tick_updates_inspect_error (config : Config) (debug : bool) (c : Collaborators)
    (err : string) :
  QueueInspect c (QueueName config) = Err err ->
  updates (fst (tick config debug c)) = [].
Proof. intros Hq. unfold tick. rewrite Hq. reflexivity. Qed.

Lemma tick_updates_scale_error (config : Config) (debug : bool) (c : Collaborators)
    (queue : Queue) (err : string) :
  QueueInspect c (QueueName config) = Ok queue ->
  GetScale c (Namespace config) (Deployment config) = Err err ->
  updates (fst (tick config debug c)) = [].
Proof.
  intros Hq Hs. unfold tick. rewrite Hq, Hs. cbn [fst].
  rewrite !updates_app. destruct debug; reflexivity.
Qed.

(** ** The claims *)

Lemma valid_params_example : valid_params (example_config half).
Proof.
  unfold valid_params, GoInt.max_int. cbn.
  repeat split; try reflexivity; lia.
Defined.

(** C1, as stated, fails: with bounds 1..10, damping 0.5, an empty queue
    and 30 replicas running, the decision is 15, above the maximum.  The
    damped value is not clamped again. *)
Lemma target_above_max_at_30 :
  valid_params (example_config half) /\
  decide (example_config half) 0 30 = Some 15 /\
  ~ (MinPods (example_config half) <= 15 <= MaxPods (example_config half)).
Proof.
  split; [ exact valid_params_example | ].
  split; [ reflexivity | ]. cbn. lia.
Qed.

(** A factor above 1 takes the target above the maximum even from a
    current count within the bounds: from 5 replicas and an empty queue
    a factor of 3 decides 13. *)
Remark target_above_max_damping_3 :
  decide (example_config (of_int 3)) 0 5 = Some 13.
Proof. reflexivity. Qed.

(** C1, amended: for valid parameters with a damping factor between 0
    and 1, a backlog below 2^53 (every count a queue reports is) and a
    current count that is a non-negative [int32], the decision yields a
    target between the minimum and the larger of the maximum and the
    current count; so the target is within the bounds whenever the
    current count is. *)
Theorem target_bounds (config : Config) (p cur : Z) :
  valid_params config -> leb (ScaleFactor config) one = true ->
  0 <= p < 2 ^ 53 -> 0 <= cur <= GoInt.max_int32 ->
  exists target,
    decide config p cur = Some target /\
    MinPods config <= target <= Z.max (MaxPods config) cur /\
    (cur <= MaxPods config -> target <= MaxPods config).
Proof.
  intros (Hb & Hmax & Hm & V & L0) L1 Hp Hc.
  pose proof (bounded_eq config p Hp Hm) as B.
  rewrite (decide_bounded _ _ _ _ B).
  set (b := Z.min (MaxPods config) (Z.max (MinPods config) (ceil_div p (MsgPerPod config)))) in *.
  assert (Hbb : MinPods config <= b <= MaxPods config) by (subst b; lia).
  destruct (Z_lt_le_dec b cur) as [S | G].
  - destruct (dampReplicas_unit config cur b) as (t & -> & Ht); trivial; try lia.
    exists t. split; [ reflexivity | lia ].
  - rewrite dampReplicas_grow by trivial. exists b. split; [ reflexivity | lia ].
Qed.

Lemma target_bounds_witness :
  exists target,
    decide (example_config half) 0 5 = Some target /\
    MinPods (example_config half) <= target <= Z.max (MaxPods (example_config half)) 5 /\
    (5 <= MaxPods (example_config half) -> target <= MaxPods (example_config half)).
Proof.
  apply (target_bounds (example_config half) 0 5).
  - exact valid_params_example.
  - reflexivity.
  - lia.
  - unfold GoInt.max_int32. lia.
Defined.




(** The product of the scale-down branch is the binary64 one, rounded to
    nearest like every float64 operation of the source.  Its floor can
    therefore be one above the floor of the exact product: the float64
    nearest to 0.7 lies just below 0.7, ten times it lies just below 7,
    and the rounded product is 7. *)
Remark damping_product_is_rounded :
  Strconv.ParseFloat_plain "0.7" = Some (S754_finite false 6305039478318694 (-53)) /\
  (10 * 6305039478318694) / 2 ^ 53 = 6 /\
  floor64 (mul (of_int 10) (S754_finite false 6305039478318694 (-53))) = Some 7 /\
  decide (example_config (S754_finite false 6305039478318694 (-53))) 0 11 = Some 8.
Proof. repeat split; reflexivity. Qed.

(** C3: the four scenarios of the specification, for backlog-per-replica
    10 and bounds 1..10: 25 messages at 1 replica give 3; an empty queue
    at 5 replicas with damping 0.5 gives 3; 120 messages at 2 replicas
    give 10; 10 messages at 1 replica give 1, and that iteration issues no
    apply call. *)
Theorem decide_scenarios (config : Config) :
  MsgPerPod config = 10 -> MinPods config = 1 -> MaxPods config = 10 ->
  decide config 25 1 = Some 3 /\
  (ScaleFactor config = half -> decide config 0 5 = Some 3) /\
  decide config 120 2 = Some 10 /\
  decide config 10 1 = Some 1 /\
  (forall debug c queue currentScale,
     QueueInspect c (QueueName config) = Ok queue ->
     GetScale c (Namespace config) (Deployment config) = Ok currentScale ->
     Messages queue = 10 -> Replicas currentScale = 1 ->
     updates (fst (tick config debug c)) = []).
Proof.
  intros Hm Hmin Hmax.
  assert (D1 : decide config 10 1 = Some 1).
  { unfold decide, rawReplicas, boundReplicas, dampReplicas.
    rewrite Hm, Hmin, Hmax. reflexivity. }
  repeat split.
  - unfold decide, rawReplicas, boundReplicas, dampReplicas.
    rewrite Hm, Hmin, Hmax. reflexivity.
  - intros Hf. unfold decide, rawReplicas, boundReplicas, dampReplicas.
    rewrite Hm, Hmin, Hmax, Hf. reflexivity.
  - unfold decide, rawReplicas, boundReplicas, dampReplicas.
    rewrite Hm, Hmin, Hmax. reflexivity.
  - exact D1.
  - intros debug c queue currentScale Hq Hs Hp Hc.
    rewrite (tick_updates_defined config debug c queue currentScale 1 Hq Hs)
      by (rewrite Hp, Hc; exact D1).
    rewrite Hc. reflexivity.
Qed.

Lemma decide_scenarios_witness :
  decide (example_config half) 25 1 = Some 3 /\
  decide (example_config half) 0 5 = Some 3 /\
  decide (example_config half) 120 2 = Some 10 /\
  decide (example_config half) 10 1 = Some 1 /\
  updates (fst (tick (example_config half) true (example_collaborators 10 1))) = [].
Proof.
  pose proof (decide_scenarios (example_config half) eq_refl eq_refl eq_refl)
    as (S1 & S2 & S3 & S4 & S5).
  split; [ exact S1 | ]. split; [ exact (S2 eq_refl) | ].
  split; [ exact S3 | ]. split; [ exact S4 | ].
  exact (S5 true (example_collaborators 10 1) _ _ eq_refl eq_refl eq_refl eq_refl).
Defined.

(** C4: in a shrink decision (valid parameters, a current count that is
    a non-negative [int32] above the bounded value) a damping factor of
    zero gives the bounded value itself, and a damping factor of one
    gives back the current count, so that the iteration issues no apply
    call. *)
Theorem damping_boundaries (config : Config) (p cur b : Z) :
  valid_params config -> 0 <= cur <= GoInt.max_int32 ->
  boundedReplicas config p = Some b -> b < cur ->
  (forall s, ScaleFactor config = S754_zero s -> decide config p cur = Some b) /\
  (ScaleFactor config = one ->
   decide config p cur = Some cur /\
   forall debug c queue currentScale,
     QueueInspect c (QueueName config) = Ok queue ->
     GetScale c (Namespace config) (Deployment config) = Ok currentScale ->
     Messages queue = p -> Replicas currentScale = cur ->
     updates (fst (tick config debug c)) = []).
Proof.
  intros (Hb & Hmax & Hm & V & L0) Hc B S.
  rewrite (decide_bounded _ _ _ _ B).
  assert (Hb0 : 0 <= b).
  { unfold boundedReplicas in B. destruct (rawReplicas config p) as [r | ]; [ | discriminate ].
    cbn [option_map] in B. injection B as <-. rewrite boundReplicas_min_max. lia. }
  assert (G : 0 < cur - b < 2 ^ 53) by (unfold GoInt.max_int32 in Hc; lia).
  assert (W : GoInt.wrap (cur - b) = cur - b).
  { apply wrap_id. unfold GoInt.min_int, GoInt.max_int, GoInt.max_int32 in *. lia. }
  split.
  - intros s Hf. unfold dampReplicas, GoInt.sub, GoInt.add.
    destruct (Z.ltb_spec b cur); [ | lia ].
    rewrite W, Hf, to_int_Floor_mul_zero by trivial. cbn [bind].
    rewrite wrap_id; [ reflexivity | ].
    unfold GoInt.min_int, GoInt.max_int, GoInt.max_int32 in *. lia.
  - intros Hf.
    assert (D : dampReplicas config cur b = Some cur).
    { unfold dampReplicas, GoInt.sub, GoInt.add.
      destruct (Z.ltb_spec b cur); [ | lia ].
      rewrite W, Hf, to_int_Floor_mul_one by trivial. cbn [bind].
      rewrite wrap_id; [ f_equal; lia | ].
      unfold GoInt.min_int, GoInt.max_int, GoInt.max_int32 in *. lia. }
    split; [ exact D | ].
    intros debug c queue currentScale Hq Hs Hp Hcur.
    rewrite (tick_updates_defined config debug c queue currentScale cur Hq Hs)
      by (rewrite Hp, Hcur, (decide_bounded _ _ _ _ B); exact D).
    rewrite Hcur, Z.eqb_refl. reflexivity.
Qed.

Lemma valid_params_example_zero : valid_params (example_config zero).
Proof.
  unfold valid_params, GoInt.max_int. cbn.
  repeat split; try reflexivity; lia.
Defined.

Lemma valid_params_example_one : valid_params (example_config one).
Proof.
  unfold valid_params, GoInt.max_int. cbn.
  repeat split; try reflexivity; lia.
Defined.

Lemma damping_boundaries_witness :
  decide (example_config zero) 0 5 = Some 1 /\
  decide (example_config one) 0 5 = Some 5 /\
  updates (fst (tick (example_config one) false (example_collaborators 0 5))) = [].
Proof.
  assert (C : 0 <= 5 <= GoInt.max_int32) by (unfold GoInt.max_int32; lia).
  assert (S : 1 < 5) by lia.
  pose proof (damping_boundaries (example_config zero) 0 5 1
                valid_params_example_zero C eq_refl S) as (Z0 & _).
  pose proof (damping_boundaries (example_config one) 0 5 1
                valid_params_example_one C eq_refl S) as (_ & O1).
  destruct (O1 eq_refl) as (O2 & O3).
  split; [ exact (Z0 false eq_refl) | ]. split; [ exact O2 | ].
  exact (O3 false (example_collaborators 0 5) _ _ eq_refl eq_refl eq_refl eq_refl).
Defined.

(** C5: an iteration whose two reads succeed issues no apply call when
    the decided target equals the replica count just read, and exactly
    one, carrying the target, when it differs. *)
Theorem apply_iff_target_differs (config : Config) (debug : bool)
    (c : Collaborators) (queue : Queue) (currentScale : Scale) (target : Z) :
  QueueInspect c (QueueName config) = Ok queue ->
  GetScale c (Namespace config) (Deployment config) = Ok currentScale ->
  decide config (Messages queue) (Replicas currentScale) = Some target ->
  (target = Replicas currentScale -> updates (fst (tick config debug c)) = []) /\
  (target <> Replicas currentScale ->
   updates (fst (tick config debug c)) = [apply_call config currentScale target]).
Proof.
  intros Hq Hs D.
  rewrite (tick_updates_defined config debug c queue currentScale target Hq Hs D).
  destruct (Z.eqb_spec target (Replicas currentScale)); split; intros; congruence.
Qed.

Lemma apply_iff_target_differs_witness :
  updates (fst (tick (example_config half) false (example_collaborators 10 1))) = [] /\
  updates (fst (tick (example_config half) false (example_collaborators 25 1))) =
  [EUpdateScale "ci" "worker"
     {| Name := "worker"; ScaleNamespace := "ci"; Replicas := 3 |}].
Proof.
  split.
  - refine (proj1 (apply_iff_target_differs (example_config half) false
                     (example_collaborators 10 1) _ _ 1 eq_refl eq_refl eq_refl) eq_refl).
  - refine (proj2 (apply_iff_target_differs (example_config half) false
                     (example_collaborators 25 1) _ _ 3 eq_refl eq_refl eq_refl) _).
    cbn. lia.
Defined.

(** C6: for a positive backlog-per-replica, whatever the other
    parameters and the current count, a larger backlog (below 2^53)
    never gives a smaller bounded value. *)
Theorem bounded_monotone (config : Config) (p1 p2 : Z) :
  0 < MsgPerPod config <= GoInt.max_int ->
  0 <= p1 -> p1 <= p2 -> p2 < 2 ^ 53 ->
  exists b1 b2,
    boundedReplicas config p1 = Some b1 /\ boundedReplicas config p2 = Some b2 /\ b1 <= b2.
Proof.
  intros Hm H1 H12 H2.
  rewrite !bounded_eq by (trivial; lia).
  do 2 eexists. split; [ reflexivity | ]. split; [ reflexivity | ].
  rewrite <- !boundReplicas_min_max. apply boundReplicas_mono.
  apply ceil_div_mono; [ lia | exact H12 ].
Qed.

Lemma bounded_monotone_witness :
  exists b1 b2,
    boundedReplicas (example_config half) 25 = Some b1 /\
    boundedReplicas (example_config half) 31 = Some b2 /\ b1 <= b2.
Proof.
  apply (bounded_monotone (example_config half) 25 31).
  - unfold GoInt.max_int. cbn. lia.
  - lia.
  - lia.
  - lia.
Defined.

Lemma loop_app (config : Config) (debug : bool) (cs1 cs2 : list Collaborators) :
  loop config debug (cs1 ++ cs2) =
  match loop config debug cs1 with
  | (t1, Slept) => let '(t2, o) := loop config debug cs2 in (t1 ++ t2, o)
  | (t1, o) => (t1, o)
  end.
Proof.
  induction cs1 as [ | c cs1 IH ]; cbn [loop app].
  - destruct (loop config debug cs2). reflexivity.
  - destruct (tick config debug c) as [t o]. destruct o; try reflexivity.
    rewrite IH. destruct (loop config debug cs1) as [t1 o1].
    destruct o1; try reflexivity.
    destruct (loop config debug cs2) as [t2 o2]. rewrite app_assoc. reflexivity.
Qed.

(** C7: the decision is a function of the backlog, the current replica
    count and the four scaling parameters and of nothing else: settings
    that agree on the parameters decide alike, whatever their other
    fields; and an iteration of the loop behaves as it would as the first
    one, whatever iterations ran before it. *)
Theorem decide_deterministic (config1 config2 : Config) (p cur : Z) :
  MinPods config1 = MinPods config2 -> MaxPods config1 = MaxPods config2 ->
  MsgPerPod config1 = MsgPerPod config2 ->
  ScaleFactor config1 = ScaleFactor config2 ->
  decide config1 p cur = decide config2 p cur /\
  (forall debug before c,
     snd (loop config1 debug before) = Slept ->
     loop config1 debug (before ++ [c]) =
     (fst (loop config1 debug before) ++ fst (tick config1 debug c),
      snd (tick config1 debug c))).
Proof.
  intros Hmin Hmax Hm Hf. split.
  - unfold decide, rawReplicas, dampReplicas, boundReplicas.
    rewrite Hmin, Hmax, Hm, Hf. reflexivity.
  - intros debug before c Hs. rewrite loop_app.
    destruct (loop config1 debug before) as [t1 o1]. cbn [fst snd] in *. subst o1.
    cbn [loop]. destruct (tick config1 debug c) as [t o].
    destruct o; cbn [fst snd]; rewrite ?app_nil_r; reflexivity.
Qed.

Lemma decide_deterministic_witness :
  decide (example_config half) 25 1 =
  decide {| RabbitMQHost := "other"; QueueName := "q"; Namespace := "n";
            Deployment := "d"; MaxPods := 10; MinPods := 1; MsgPerPod := 10;
            ScanInterval := 5; ScaleFactor := half |} 25 1.
Proof.
  exact (proj1 (decide_deterministic (example_config half)
                  {| RabbitMQHost := "other"; QueueName := "q"; Namespace := "n";
                     Deployment := "d"; MaxPods := 10; MinPods := 1; MsgPerPod := 10;
                     ScanInterval := 5; ScaleFactor := half |} 25 1
                  eq_refl eq_refl eq_refl eq_refl)).
Defined.

(** ** Startup *)

Lemma digit_range (c : ascii) (d : Z) : Strconv.digit c = Some d -> 0 <= d <= 9.
Proof.
  unfold Strconv.digit.
  destruct (Z.leb_spec 48 (Z.of_nat (nat_of_ascii c)));
    destruct (Z.leb_spec (Z.of_nat (nat_of_ascii c)) 57); cbn [andb];
    try discriminate.
  intros [= <-]. lia.
Qed.

Lemma digits_nonneg (s : string) :
  forall acc n, 0 <= acc -> Strconv.digits acc s = Some n -> 0 <= n.
Proof.
  induction s as [ | c s IH ]; intros acc n Hacc; cbn [Strconv.digits].
  - intros [= <-]. exact Hacc.
  - destruct (Strconv.digit c) as [ d | ] eqn:D; [ | discriminate ].
    apply digit_range in D. apply IH. lia.
Qed.

Lemma unsigned_nonneg (s : string) (n : Z) : Strconv.unsigned s = Some n -> 0 <= n.
Proof.
  unfold Strconv.unsigned. destruct s; [ discriminate | ].
  apply digits_nonneg. lia.
Qed.

(** What [ParseInt] accepts is an [int]. *)
Lemma ParseInt_range (s : string) (n : Z) :
  Strconv.ParseInt s = Some n -> GoInt.min_int <= n <= GoInt.max_int.
Proof.
  unfold Strconv.ParseInt, GoInt.min_int, GoInt.max_int.
  destruct s as [ | c s' ]; [ discriminate | ].
  destruct (Ascii.eqb c "+"); [ | destruct (Ascii.eqb c "-") ];
    (destruct (Strconv.unsigned _) as [ un | ] eqn:U; [ | discriminate ]);
    apply unsigned_nonneg in U.
  - destruct (Z.ltb_spec un (2 ^ 63)); [ | discriminate ]. intros [= <-]. lia.
  - destruct (Z.leb_spec un (2 ^ 63)); [ | discriminate ]. intros [= <-]. lia.
  - destruct (Z.ltb_spec un (2 ^ 63)); [ | discriminate ]. intros [= <-]. lia.
Qed.

(** Settings that pass the startup checks are values of their Go types. *)
Lemma settings_parse_range (ParseFloat : string -> option float64)
    (env : Environ) (config : Config) :
  settings_parse ParseFloat env config ->
  (GoInt.min_int <= MaxPods config <= GoInt.max_int) /\
  (GoInt.min_int <= MinPods config <= GoInt.max_int) /\
  (GoInt.min_int <= MsgPerPod config <= GoInt.max_int) /\
  (GoInt.min_int <= ScanInterval config <= GoInt.max_int).
Proof.
  intros (_ & _ & _ & _ & H1 & H2 & H3 & H4 & _).
  repeat split; eapply ParseInt_range; eauto.
Qed.

(** C8, as stated, fails: settings with MIN_PODS=5 above MAX_PODS=3 pass
    the startup checks, and the loop runs with them (the first iteration
    scales to the maximum, 3). *)
Lemma inverted_bounds_reach_loop :
  exists config,
    loadConfig Strconv.ParseFloat_plain inverted_env = inr config /\
    MaxPods config < MinPods config /\
    main Strconv.ParseFloat_plain inverted_env example_boot
         [example_collaborators 100 1] =
    ([EQueueInspect "builds"; EGetScale "ci" "worker";
      EUpdateScale "ci" "worker"
        {| Name := "worker"; ScaleNamespace := "ci"; Replicas := 3 |};
      EPrintln (ScaledTo 3); ESleep 30000000000], Slept).
Proof.
  eexists. split; [ reflexivity | ]. split; [ cbn; lia | reflexivity ].
Qed.

Lemma loadConfig_iff (ParseFloat : string -> option float64)
    (env : Environ) (config : Config) :
  loadConfig ParseFloat env = inr config <-> settings_parse ParseFloat env config.
Proof.
  unfold loadConfig, configKeys.
  repeat first
    [ progress cbn [loadFields loadField fieldKind]
    | step_load ParseFloat; [ try refute_settings .. ] ].
  all: try refute_settings.
  cbn [SetString SetInt SetFloat emptyConfig RabbitMQHost QueueName Namespace
       Deployment MaxPods MinPods MsgPerPod ScanInterval ScaleFactor].
  unfold settings_parse. split.
  - intros [= <-]. cbn. repeat split; trivial.
  - intros ((? & ?) & (? & ?) & (? & ?) & (? & ?) & ? & ? & ? & ? & (? & ?)).
    destruct config; cbn in *. repeat f_equal; congruence.
Qed.

(** C8, amended: the startup phase rejects, before any iteration, exactly
    the environments in which a setting is missing or empty or a numeric
    setting does not parse; every other environment reaches the loop with
    the settings as parsed.  The order of the two bounds is not looked
    at. *)
Theorem startup_checks (ParseFloat : string -> option float64) (env : Environ) :
  (forall config,
     loadConfig ParseFloat env = inr config <-> settings_parse ParseFloat env config) /\
  (forall p boot cs,
     loadConfig ParseFloat env = inl p ->
     main ParseFloat env boot cs = ([], Panicked p)) /\
  (forall config boot cs,
     settings_parse ParseFloat env config -> boots boot (RabbitMQHost config) ->
     main ParseFloat env boot cs =
     loop config (String.eqb (Getenv env "DEBUG") "true") cs).
Proof.
  split; [ intros config; apply loadConfig_iff | ]. split.
  - intros p boot cs H. unfold main. rewrite H. reflexivity.
  - intros config boot cs H (B1 & B2 & B3 & B4).
    apply loadConfig_iff in H. unfold main. rewrite H, B1, B2, B3, B4. reflexivity.
Qed.

Lemma startup_checks_witness :
  main Strconv.ParseFloat_plain inverted_env example_boot [] =
  loop {| RabbitMQHost := "amqp://queue"; QueueName := "builds"; Namespace := "ci";
          Deployment := "worker"; MaxPods := 3; MinPods := 5; MsgPerPod := 10;
          ScanInterval := 30; ScaleFactor := half |} false [].
Proof.
  refine (proj2 (proj2 (startup_checks Strconv.ParseFloat_plain inverted_env))
            _ example_boot [] _ _).
  - unfold settings_parse. cbn. repeat split; try discriminate; reflexivity.
  - repeat split.
Defined.

(** C9: the minimum is applied first and the maximum last, so the two
    bound checks turn any value into the smaller of the maximum and the
    larger of the minimum and that value, whatever the order of the two
    bounds; hence, for a positive backlog-per-replica and a backlog below
    2^53, the bounded value is that function of the ceiling, never
    exceeds the maximum, and is the maximum when the minimum lies above
    it. *)
Theorem bounded_max_wins (config : Config) (p : Z) :
  (forall r,
     boundReplicas config r = Z.min (MaxPods config) (Z.max (MinPods config) r) /\
     boundReplicas config r <= MaxPods config) /\
  (0 < MsgPerPod config <= GoInt.max_int -> 0 <= p < 2 ^ 53 ->
   exists b,
     boundedReplicas config p = Some b /\
     b = Z.min (MaxPods config) (Z.max (MinPods config) (ceil_div p (MsgPerPod config))) /\
     b <= MaxPods config /\
     (MaxPods config < MinPods config -> b = MaxPods config)).
Proof.
  split.
  - intros r. rewrite boundReplicas_min_max. split; [ reflexivity | lia ].
  - intros Hm Hp. rewrite bounded_eq by trivial.
    eexists. split; [ reflexivity | ]. split; [ reflexivity | ]. lia.
Qed.

Lemma bounded_max_wins_witness :
  exists b,
    boundedReplicas {| RabbitMQHost := "h"; QueueName := "q"; Namespace := "n";
               Deployment := "d"; MaxPods := 3; MinPods := 5; MsgPerPod := 10;
               ScanInterval := 5; ScaleFactor := half |} 100 = Some b /\
    b = Z.min 3 (Z.max 5 (ceil_div 100 10)) /\ b <= 3 /\ (3 < 5 -> b = 3).
Proof.
  apply (proj2 (bounded_max_wins
           {| RabbitMQHost := "h"; QueueName := "q"; Namespace := "n";
              Deployment := "d"; MaxPods := 3; MinPods := 5; MsgPerPod := 10;
              ScanInterval := 5; ScaleFactor := half |} 100)).
  - unfold GoInt.max_int. cbn. lia.
  - lia.
Defined.

(** C10: for valid parameters with a damping factor between 0 and 1
    and a current count that is a non-negative [int32], a shrink decision
    lands between the bounded value and the current count. *)
Theorem damped_between (config : Config) (p cur b : Z) :
  valid_params config -> leb (ScaleFactor config) one = true ->
  0 <= cur <= GoInt.max_int32 ->
  boundedReplicas config p = Some b -> b < cur ->
  exists target, decide config p cur = Some target /\ b <= target <= cur.
Proof.
  intros (Hb & Hmax & Hm & V & L0) L1 Hc B S.
  rewrite (decide_bounded _ _ _ _ B).
  assert (Hb0 : 0 <= b).
  { unfold boundedReplicas in B. destruct (rawReplicas config p) as [r | ]; [ | discriminate ].
    cbn [option_map] in B. injection B as <-. rewrite boundReplicas_min_max. lia. }
  apply dampReplicas_unit; trivial; lia.
Qed.

Lemma damped_between_witness :
  exists target, decide (example_config half) 0 5 = Some target /\ 1 <= target <= 5.
Proof.
  apply (damped_between (example_config half) 0 5 1).
  - exact valid_params_example.
  - reflexivity.
  - unfold GoInt.max_int32. lia.
  - reflexivity.
  - lia.
Defined.

(** * The iteration, the loop and the startup in more detail *)

(** ** The shape of an iteration *)

Lemma calls_app (a b : list Event) : calls (a ++ b) = calls a ++ calls b.
Proof. apply filter_app. Qed.

Lemma prints_app (a b : list Event) : prints (a ++ b) = prints a ++ prints b.
Proof. apply filter_app. Qed.

Lemma sleeps_app (a b : list Event) : sleeps (a ++ b) = sleeps a ++ sleeps b.
Proof. apply filter_app. Qed.

(** Every way an iteration can go. *)
Ltac tick_cases config debug c :=
  unfold tick;
  destruct (QueueInspect c (QueueName config)) as [ queue | err ];
  [ destruct (GetScale c (Namespace config) (Deployment config))
      as [ currentScale | err ];
    [ cbv zeta;
      set (replicas := boundReplicas config
                         (rawReplicasOn (Convert c) config (Messages queue)));
      set (target := dampReplicasOn (Convert c) config (Replicas currentScale)
                       replicas);
      destruct (Z.eqb_spec target (Replicas currentScale)); cbn [negb];
      [ | destruct (UpdateScale c (Namespace config) (Deployment config) _)
            as [ [] | err ] ]
    | ]
  | ].

(** X1: the collaborator calls of one iteration, printed lines left
    aside, follow one of five sequences, each with its own ending: a
    panic after a failed inspection, after a failed read of the scale or
    after a failed update, or the pause, with or without an update
    before it.  The queue is always inspected first; the channel and the
    connection are closed only when that inspection fails; the scale is
    read before any update; at most one update is issued, after both
    reads; the pause comes last. *)
Theorem tick_protocol (config : Config) (debug : bool) (c : Collaborators) :
  let inspect := EQueueInspect (QueueName config) in
  let getScale := EGetScale (Namespace config) (Deployment config) in
  let t := calls (fst (tick config debug c)) in
  let o := snd (tick config debug c) in
  (exists err, t = [inspect; ECloseChannel; ECloseConnection] /\
               o = Panicked (RabbitInspectError err)) \/
  (exists err, t = [inspect; getScale] /\ o = Panicked (KubeGetScaleError err)) \/
  (t = [inspect; getScale; pause config] /\ o = Slept) \/
  (exists currentScale target err,
      t = [inspect; getScale; apply_call config currentScale target] /\
      o = Panicked (KubeScalingError err)) \/
  (exists currentScale target,
      t = [inspect; getScale; apply_call config currentScale target; pause config] /\
      o = Slept).
Proof.
  cbv zeta. tick_cases config debug c; cbn [fst snd];
    rewrite ?calls_app; destruct debug; cbn;
    try (destruct (replicas <? Replicas currentScale); cbn);
    solve [ left; eexists; split; reflexivity
          | right; left; eexists; split; reflexivity
          | right; right; left; split; reflexivity
          | right; right; right; left; do 3 eexists; split; reflexivity
          | right; right; right; right; do 2 eexists; split; reflexivity ].
Qed.

(** X2: the [DEBUG] switch changes what is printed and nothing else:
    with and without it an iteration makes the same calls, with the same
    arguments, and ends the same way. *)
Theorem debug_only_prints (config : Config) (c : Collaborators) :
  calls (fst (tick config true c)) = calls (fst (tick config false c)) /\
  snd (tick config true c) = snd (tick config false c).
Proof.
  tick_cases config debug c; cbn [fst snd]; rewrite ?calls_app; cbn;
    try (destruct (replicas <? Replicas currentScale); cbn);
    split; reflexivity.
Qed.

(** X3: without [DEBUG] an iteration prints nothing, except the one
    line "Scaled to ..." after an update that succeeded; that line
    reports the target the update was issued for.  A failed update, a
    failed read and an unchanged count print nothing. *)
Theorem quiet_prints (config : Config) (c : Collaborators) :
  let t := fst (tick config false c) in
  (prints t = [] /\ (updates t = [] \/ snd (tick config false c) <> Slept)) \/
  (exists currentScale target,
     prints t = [EPrintln (ScaledTo target)] /\
     updates t = [apply_call config currentScale target] /\
     snd (tick config false c) = Slept).
Proof.
  cbv zeta. tick_cases config false c; cbn [fst snd]; cbn.
  all: try (left; split; [ reflexivity | ]; (left; reflexivity) || (right; discriminate)).
  right. do 2 eexists. repeat split.
Qed.

(** An iteration that completes pauses exactly once; one that does not
    never pauses. *)
Lemma tick_sleeps (config : Config) (debug : bool) (c : Collaborators) :
  sleeps (fst (tick config debug c)) =
  match snd (tick config debug c) with
  | Slept => [pause config]
  | _ => []
  end.
Proof.
  tick_cases config debug c; cbn [fst snd]; rewrite ?sleeps_app; destruct debug; cbn;
    try (destruct (replicas <? Replicas currentScale); cbn);
    reflexivity.
Qed.

(** An iteration issues at most one update. *)
Lemma tick_updates_le_1 (config : Config) (debug : bool) (c : Collaborators) :
  (List.length (updates (fst (tick config debug c))) <= 1)%nat.
Proof.
  tick_cases config debug c; cbn [fst snd]; rewrite ?updates_app; destruct debug; cbn;
    try (destruct (replicas <? Replicas currentScale); cbn);
    lia.
Qed.

(** ** The pause *)

(** One wrap-around of [int] arithmetic. *)
Lemma wrap_over (z : Z) : 2 ^ 63 <= z < 2 ^ 64 -> GoInt.wrap z = z - 2 ^ 64.
Proof.
  intros H. unfold GoInt.wrap.
  rewrite <- (Z.mod_unique (z + 2 ^ 63) (2 ^ 64) 1 (z + 2 ^ 63 - 2 ^ 64)); lia.
Qed.

(** X4: the pause of a completed iteration is [SCAN_INTERVAL] seconds
    in nanoseconds as long as that product fits an [int64], that is up
    to 9223372036 seconds; zero and negative intervals are accepted too
    and give a pause that is not positive.  From 9223372037 up to
    18446744073 seconds the product wraps around to a negative
    duration. *)
Theorem pause_duration (config : Config) (debug : bool) (c : Collaborators) :
  snd (tick config debug c) = Slept ->
  (- 9223372036 <= ScanInterval config <= 9223372036 ->
   sleeps (fst (tick config debug c)) =
     [ESleep (ScanInterval config * 1000000000)]) /\
  (9223372036 < ScanInterval config <= 18446744073 ->
   exists d, sleeps (fst (tick config debug c)) = [ESleep d] /\
             d = ScanInterval config * 1000000000 - 2 ^ 64 /\ d < 0).
Proof.
  intros S. rewrite tick_sleeps, S. unfold pause. split.
  - intros H. rewrite (wrap_id (ScanInterval config))
      by (unfold GoInt.min_int, GoInt.max_int; lia).
    rewrite wrap_id by (unfold GoInt.min_int, GoInt.max_int; lia).
    reflexivity.
  - intros H. rewrite (wrap_id (ScanInterval config))
      by (unfold GoInt.min_int, GoInt.max_int; lia).
    rewrite wrap_over by lia. eexists. split; [ reflexivity | ]. lia.
Qed.

Lemma pause_duration_witness :
  sleeps (fst (tick (example_config half) false (example_collaborators 10 1))) =
  [ESleep (30 * 1000000000)].
Proof.
  refine (proj1 (pause_duration (example_config half) false
                   (example_collaborators 10 1) eq_refl) _).
  cbn. lia.
Defined.

(** ** The loop *)

(** The loop, one iteration unfolded. *)
Lemma loop_cons (config : Config) (debug : bool) (c : Collaborators)
    (cs : list Collaborators) :
  loop config debug (c :: cs) =
  match snd (tick config debug c) with
  | Slept => (fst (tick config debug c) ++ fst (loop config debug cs),
              snd (loop config debug cs))
  | o => (fst (tick config debug c), o)
  end.
Proof.
  cbn [loop]. destruct (tick config debug c) as [t o]. cbn [fst snd].
  destruct o; try reflexivity. destruct (loop config debug cs). reflexivity.
Qed.

(** X5: the loop ends with the first iteration that panics: the trace
    is that of the iterations before it followed by its own, the outcome
    is its panic, and nothing of the iterations after it is run. *)
Theorem loop_stops_at_first_failure (config : Config) (debug : bool)
    (before after : list Collaborators) (c : Collaborators) (p : PanicMsg) :
  Forall (fun c' => snd (tick config debug c') = Slept) before ->
  snd (tick config debug c) = Panicked p ->
  loop config debug (before ++ c :: after) =
  (List.concat (map (fun c' => fst (tick config debug c')) before)
     ++ fst (tick config debug c),
   Panicked p).
Proof.
  intros Hb Hc. induction Hb as [ | c' before Hc' Hb IH ].
  - cbn [app map concat]. rewrite loop_cons, Hc. reflexivity.
  - cbn [app map concat]. rewrite loop_cons, Hc', IH. cbn [fst snd].
    rewrite app_assoc. reflexivity.
Qed.

Lemma loop_stops_at_first_failure_witness :
  loop (example_config half) false
       ([example_collaborators 10 1] ++ broken_queue :: [example_collaborators 25 1]) =
  (List.concat (map (fun c' => fst (tick (example_config half) false c'))
                    [example_collaborators 10 1])
     ++ fst (tick (example_config half) false broken_queue),
   Panicked (RabbitInspectError "channel closed")).
Proof.
  apply (loop_stops_at_first_failure (example_config half) false
           [example_collaborators 10 1] [example_collaborators 25 1] broken_queue).
  - constructor; [ reflexivity | constructor ].
  - reflexivity.
Defined.

(** X6: the loop gets through all the iterations it is given exactly
    when every one of them reaches its pause; its trace is then the
    traces of the iterations one after the other, with one pause of the
    configured length for each. *)
Theorem loop_completes_iff (config : Config) (debug : bool)
    (cs : list Collaborators) :
  (snd (loop config debug cs) = Slept <->
   Forall (fun c => snd (tick config debug c) = Slept) cs) /\
  (snd (loop config debug cs) = Slept ->
   fst (loop config debug cs) =
     List.concat (map (fun c => fst (tick config debug c)) cs) /\
   sleeps (fst (loop config debug cs)) = repeat (pause config) (List.length cs)).
Proof.
  induction cs as [ | c cs (IH1 & IH2) ].
  - cbn. repeat split; trivial.
  - rewrite loop_cons. pose proof (tick_sleeps config debug c) as TS.
    destruct (snd (tick config debug c)) eqn:O; cbn [fst snd].
    + split.
      * rewrite IH1. split; intros H.
        -- constructor; trivial.
        -- inversion H; trivial.
      * intros H. destruct (IH2 H) as (E1 & E2).
        cbn [map List.concat List.length repeat]. split.
        -- rewrite E1. reflexivity.
        -- rewrite sleeps_app, TS, E2. reflexivity.
    + split; [ | discriminate ]. split; [ discriminate | ].
      intros H. inversion H; congruence.
Qed.

Lemma loop_completes_iff_witness :
  fst (loop (example_config half) false
         [example_collaborators 10 1; example_collaborators 25 1]) =
    List.concat (map (fun c => fst (tick (example_config half) false c))
                     [example_collaborators 10 1; example_collaborators 25 1]) /\
  sleeps (fst (loop (example_config half) false
         [example_collaborators 10 1; example_collaborators 25 1])) =
    repeat (pause (example_config half)) 2.
Proof.
  exact (proj2 (loop_completes_iff (example_config half) false
                  [example_collaborators 10 1; example_collaborators 25 1]) eq_refl).
Defined.

(** X7: however the iterations end, the loop issues at most one update
    and at most one pause for each iteration it is given. *)
Theorem loop_updates_bound (config : Config) (debug : bool)
    (cs : list Collaborators) :
  (List.length (updates (fst (loop config debug cs))) <= List.length cs)%nat /\
  (List.length (sleeps (fst (loop config debug cs))) <= List.length cs)%nat.
Proof.
  induction cs as [ | c cs (IH1 & IH2) ]; [ cbn; lia | ].
  rewrite loop_cons.
  pose proof (tick_updates_le_1 config debug c) as U.
  pose proof (tick_sleeps config debug c) as TS.
  destruct (snd (tick config debug c)); cbn [fst snd List.length];
    rewrite ?updates_app, ?sleeps_app, ?length_app, ?TS; cbn [List.length]; lia.
Qed.

(** ** Damping below one *)

(** Less than half a unit below [k] rounds to below [k]. *)
Lemma rne_lt (a b k : Z) : 0 < b -> 2 * a < (2 * k - 1) * b -> rne a b < k.
Proof.
  intros Hb H. unfold rne.
  pose proof (Z.mod_pos_bound a b Hb) as Bm.
  pose proof (Z.div_mod a b ltac:(lia)) as E.
  set (q := a / b) in *. set (r := a mod b) in *. clearbody q r.
  assert (q <= k - 1) by nia.
  destruct (Z.eq_dec q (k - 1)) as [-> | N].
  - assert (2 * r < b) by nia.
    destruct (Z.compare_spec (2 * r) b); lia.
  - destruct (2 * r ?= b); try destruct (Z.even q); lia.
Qed.

(** A valid finite number has an exponent of at least -1074 and a
    mantissa of at most 53 bits. *)
Lemma valid_finite (s : bool) (m : positive) (e : Z) :
  valid (S754_finite s m e) = true -> -1074 <= e /\ Zpos m < 2 ^ 53.
Proof.
  intros V.
  unfold valid, valid_binary, SpecFloat.bounded, canonical_mantissa in V.
  apply andb_prop in V. destruct V as [V _]. apply Z.eqb_eq in V.
  rewrite fexp_eq in V. pose proof (digits2_pos_bounds m) as B.
  split; [ lia | ].
  assert (Zpos (digits2_pos m) <= 53) by lia.
  assert (2 ^ Zpos (digits2_pos m) <= 2 ^ 53) by (apply Z.pow_le_mono_r; lia).
  lia.
Qed.

(** What [0 <= f < 1] means for a finite binary64 number. *)
Lemma ltb_one_finite (s : bool) (m : positive) (e : Z) :
  valid (S754_finite s m e) = true ->
  leb zero (S754_finite s m e) = true ->
  SFltb (S754_finite s m e) one = true ->
  s = false /\ e <= -53 /\ Zpos m < 2 ^ (- e).
Proof.
  intros V L0 L1. destruct s; [ discriminate | ]. split; [ reflexivity | ].
  unfold valid, valid_binary, SpecFloat.bounded, canonical_mantissa in V.
  apply andb_prop in V. destruct V as [V _]. apply Z.eqb_eq in V.
  rewrite fexp_eq in V.
  pose proof (digits2_pos_bounds m) as B.
  rewrite one_eq in L1.
  assert (C : Zpos (Z.to_pos (2 ^ 52)) = 2 ^ 52) by reflexivity.
  set (c := Z.to_pos (2 ^ 52)) in *. clearbody c.
  unfold SFltb, SFcompare in L1.
  destruct (Z.compare_spec e (-52)) as [-> | Lt | Gt']; try discriminate.
  - exfalso. change (Pos.compare_cont Eq m c) with (Pos.compare m c) in L1.
    destruct (Pos.compare_spec m c) as [-> | Hlt | Hgt]; try discriminate.
    assert (Zpos (digits2_pos m) = 53) by lia.
    replace (Zpos (digits2_pos m) - 1) with 52 in B by lia. lia.
  - split; [ lia | ].
    assert (Zpos (digits2_pos m) <= 53) by lia.
    assert (2 ^ Zpos (digits2_pos m) <= 2 ^ 53) by (apply Z.pow_le_mono_r; lia).
    assert (2 ^ 53 <= 2 ^ (- e)) by (apply Z.pow_le_mono_r; lia). lia.
Qed.

(** Damping by a factor below 1 always gives up at least one unit of
    the gap. *)
Lemma to_int_Floor_mul_below (g : Z) (f : float64) :
  0 < g < 2 ^ 53 ->
  valid f = true -> leb zero f = true -> SFltb f one = true ->
  exists d, to_int (Floor (mul (of_int g) f)) = Some d /\ 0 <= d < g.
Proof.
  intros Hg V L0 L1.
  destruct (of_int_small g Hg) as (mx & ex & -> & Nx & Hex & Hmx & _).
  destruct f as [s | s | | s mf ef]; try discriminate.
  - exists 0. split; [ reflexivity | lia ].
  - destruct s; discriminate.
  - destruct (ltb_one_finite s mf ef V L0 L1) as (-> & He & Hm).
    destruct (valid_finite _ _ _ V) as (Hef & Hmf).
    destruct (mul_finite false false mx mf ex ef) as (k & Hk & B & ->).
    cbn [xorb]. rewrite fexp_eq in Hk.
    set (A := Zpos mx * Zpos mf) in *.
    unfold normal in Nx.
    assert (Px : 0 < 2 ^ (- ex)) by (apply Z.pow_pos_nonneg; lia).
    assert (Pf : 0 < 2 ^ (- ef)) by (apply Z.pow_pos_nonneg; lia).
    assert (HA : 0 < A < 2 ^ (53 - ef)).
    { replace (53 - ef) with (53 + - ef) by lia. rewrite Z.pow_add_r by lia.
      subst A. split; nia. }
    assert (DA : Zdigits2 A <= 53 - ef) by (apply Zdigits2_lt_pow; lia).
    assert (HE : ex + ef + k <= 0) by lia.
    assert (Hk0 : 0 <= k) by lia.
    assert (Hk1 : k = 0 \/ k = -1074 - ex - ef \/ k = Zdigits2 A - 53) by lia.
    pose proof (Zdigits2_bounds A ltac:(lia)) as BA.
    assert (Pk : 0 < 2 ^ k) by (apply Z.pow_pos_nonneg; lia).
    assert (PU : 0 < 2 ^ (- (ex + ef + k))) by (apply Z.pow_pos_nonneg; lia).
    (* the rounding unit is small against the mantissa of the gap *)
    assert (K2 : 2 ^ k < 2 * Zpos mx).
    { destruct Hk1 as [-> | [Sub | Nor]]; [ cbn; lia | | ].
      - assert (2 ^ k <= 2 ^ 52) by (apply Z.pow_le_mono_r; lia). plia.
      - replace (Zdigits2 A - 1) with (k + 52) in BA by lia.
        rewrite Z.pow_add_r in BA by lia.
        change (2 ^ 53) with (2 * 2 ^ 52) in *. subst A. pnia. }
    rewrite to_int_Floor_pack by trivial.
    eexists. split; [ reflexivity | ].
    split; [ apply Z.div_pos; lia | ].
    apply Z.div_lt_upper_bound; [ lia | ].
    rewrite Z.mul_comm.
    apply rne_lt; trivial.
    assert (G : g * 2 ^ (- (ex + ef + k)) * 2 ^ k = Zpos mx * 2 ^ (- ef)).
    { rewrite <- Z.mul_assoc, <- Z.pow_add_r by lia.
      replace (- (ex + ef + k) + k) with (- ex + - ef) by lia.
      rewrite Z.pow_add_r, Z.mul_assoc, <- Hmx by lia. reflexivity. }
    replace ((2 * (g * 2 ^ (- (ex + ef + k))) - 1) * 2 ^ k)
      with (2 * (g * 2 ^ (- (ex + ef + k)) * 2 ^ k) - 2 ^ k) by ring.
    rewrite G. subst A.
    assert (1 <= 2 ^ (- ef) - Zpos mf) by lia.
    name_pows. nia.
Qed.

(** The scale-down branch under a factor below 1. *)
Lemma dampReplicas_below (config : Config) (cur b : Z) :
  0 <= b < cur -> cur <= GoInt.max_int32 ->
  valid (ScaleFactor config) = true ->
  leb zero (ScaleFactor config) = true -> SFltb (ScaleFactor config) one = true ->
  exists t, dampReplicas config cur b = Some t /\ b <= t < cur.
Proof.
  intros Hb Hc V L0 L1. unfold dampReplicas, GoInt.sub, GoInt.add.
  unfold GoInt.max_int32 in *.
  destruct (Z.ltb_spec b cur); [ | lia ].
  rewrite wrap_id by (unfold GoInt.min_int, GoInt.max_int; lia).
  destruct (to_int_Floor_mul_below (cur - b) (ScaleFactor config)) as (d & -> & Hd);
    trivial; [ lia | ].
  cbn [bind]. rewrite wrap_id by (unfold GoInt.min_int, GoInt.max_int; lia).
  eexists. split; [ reflexivity | lia ].
Qed.

(** The bounded value lies within ordered bounds. *)
Lemma bounded_nonneg (config : Config) (p b : Z) :
  0 <= MinPods config <= MaxPods config ->
  boundedReplicas config p = Some b -> MinPods config <= b <= MaxPods config.
Proof.
  intros Hb B. unfold boundedReplicas in B.
  destruct (rawReplicas config p) as [r | ]; [ | discriminate ].
  cbn [option_map] in B. injection B as <-. rewrite boundReplicas_min_max. lia.
Qed.

(** X8: with a damping factor below 1 a shrink always makes progress:
    when the bounded value is below the current count the target is at
    least the bounded value and strictly below the current count, so the
    iteration issues an update for it. *)
Theorem damped_progress (config : Config) (p cur b : Z) :
  valid_params config -> SFltb (ScaleFactor config) one = true ->
  0 <= cur <= GoInt.max_int32 ->
  boundedReplicas config p = Some b -> b < cur ->
  exists target,
    decide config p cur = Some target /\ b <= target < cur /\
    forall debug c queue currentScale,
      QueueInspect c (QueueName config) = Ok queue ->
      GetScale c (Namespace config) (Deployment config) = Ok currentScale ->
      Messages queue = p -> Replicas currentScale = cur ->
      updates (fst (tick config debug c)) = [apply_call config currentScale target].
Proof.
  intros (Hb & Hmax & Hm & V & L0) L1 Hc B S.
  pose proof (bounded_nonneg config p b Hb B) as Hbb.
  destruct (dampReplicas_below config cur b) as (t & D & Ht); trivial; try lia.
  exists t. rewrite (decide_bounded _ _ _ _ B). split; [ exact D | ].
  split; [ exact Ht | ].
  intros debug c queue currentScale Hq Hs Hp Hcur.
  rewrite (tick_updates_defined config debug c queue currentScale t Hq Hs)
    by (rewrite Hp, Hcur, (decide_bounded _ _ _ _ B); exact D).
  rewrite Hcur. destruct (Z.eqb_spec t cur); [ lia | reflexivity ].
Qed.

Lemma valid_params_example_half_lt : SFltb (ScaleFactor (example_config half)) one = true.
Proof. reflexivity. Defined.

Lemma damped_progress_witness :
  exists target,
    decide (example_config half) 0 5 = Some target /\ 1 <= target < 5 /\
    updates (fst (tick (example_config half) false (example_collaborators 0 5))) =
    [apply_call (example_config half)
       {| Name := "worker"; ScaleNamespace := "ci"; Replicas := 5 |} target].
Proof.
  assert (C : 0 <= 5 <= GoInt.max_int32) by (unfold GoInt.max_int32; lia).
  assert (S : 1 < 5) by lia.
  destruct (damped_progress (example_config half) 0 5 1 valid_params_example
              valid_params_example_half_lt C eq_refl S) as (t & D & Ht & U).
  exists t. split; [ exact D | ]. split; [ exact Ht | ].
  exact (U false (example_collaborators 0 5) _ _ eq_refl eq_refl eq_refl eq_refl).
Defined.

(** X9: with a damping factor below 1 the decision leaves the current
    count alone exactly when the current count is the bounded value for
    the backlog. *)
Theorem quiescent_iff_bounded (config : Config) (p cur : Z) :
  valid_params config -> SFltb (ScaleFactor config) one = true ->
  0 <= p < 2 ^ 53 -> 0 <= cur <= GoInt.max_int32 ->
  (decide config p cur = Some cur <-> boundedReplicas config p = Some cur).
Proof.
  intros (Hb & Hmax & Hm & V & L0) L1 Hp Hc.
  pose proof (bounded_eq config p Hp Hm) as B.
  set (b := Z.min (MaxPods config) (Z.max (MinPods config) (ceil_div p (MsgPerPod config)))) in *.
  assert (Hbb : MinPods config <= b <= MaxPods config) by (subst b; lia).
  rewrite (decide_bounded _ _ _ _ B), B.
  destruct (Z_lt_le_dec b cur) as [S | G].
  - destruct (dampReplicas_below config cur b) as (t & -> & Ht); trivial; try lia.
    split; intros [= E]; lia.
  - rewrite dampReplicas_grow by trivial. reflexivity.
Qed.

Lemma quiescent_iff_bounded_witness :
  decide (example_config half) 25 3 = Some 3 <->
  boundedReplicas (example_config half) 25 = Some 3.
Proof.
  apply (quiescent_iff_bounded (example_config half) 25 3).
  - exact valid_params_example.
  - reflexivity.
  - lia.
  - unfold GoInt.max_int32. lia.
Defined.

(** ** Settling *)

(** The bounded value is a fixed point of the decision. *)
Lemma settle_at_bounded (config : Config) (p b : Z) (n : nat) :
  boundedReplicas config p = Some b -> settle config p b n = Some b.
Proof.
  intros B. induction n as [ | n IH ]; [ reflexivity | ].
  cbn [settle]. rewrite (decide_bounded _ _ _ _ B), dampReplicas_grow by lia.
  exact IH.
Qed.

Lemma settle_down (config : Config) (p b : Z) :
  0 <= MinPods config <= MaxPods config ->
  valid (ScaleFactor config) = true ->
  leb zero (ScaleFactor config) = true -> SFltb (ScaleFactor config) one = true ->
  boundedReplicas config p = Some b ->
  forall (n : nat) (cur : Z),
    b <= cur <= GoInt.max_int32 -> cur - b <= Z.of_nat n ->
    settle config p cur n = Some b.
Proof.
  intros Hb V L0 L1 B.
  pose proof (bounded_nonneg config p b Hb B) as Hbb.
  induction n as [ | n IH ]; intros cur Hc Hn.
  - cbn [settle]. f_equal. lia.
  - destruct (Z.eq_dec cur b) as [-> | N]; [ apply settle_at_bounded; trivial | ].
    cbn [settle]. rewrite (decide_bounded _ _ _ _ B).
    destruct (dampReplicas_below config cur b) as (t & -> & Ht); trivial; try lia.
    apply IH; lia.
Qed.

(** X10: on an unchanged backlog and with a damping factor below 1 the
    repeated decision reaches the bounded value after at most as many
    iterations as the current count exceeds it by (one iteration when the
    count is below), and stays there. *)
Theorem settles_within_gap (config : Config) (p cur b : Z) (n : nat) :
  valid_params config -> SFltb (ScaleFactor config) one = true ->
  0 <= cur <= GoInt.max_int32 ->
  boundedReplicas config p = Some b ->
  Z.max 1 (cur - b) <= Z.of_nat n ->
  settle config p cur n = Some b.
Proof.
  intros (Hb & Hmax & Hm & V & L0) L1 Hc B Hn.
  destruct (Z_lt_le_dec cur b) as [G | S].
  - destruct n as [ | n ]; [ lia | ].
    cbn [settle]. rewrite (decide_bounded _ _ _ _ B), dampReplicas_grow by lia.
    apply settle_at_bounded; trivial.
  - apply (settle_down config p b Hb V L0 L1 B); lia.
Qed.

Lemma settles_within_gap_witness :
  settle (example_config half) 0 5 4 = Some 1.
Proof.
  apply (settles_within_gap (example_config half) 0 5 1 4).
  - exact valid_params_example.
  - reflexivity.
  - unfold GoInt.max_int32. lia.
  - reflexivity.
  - lia.
Defined.

(** ** Factors that are powers of two *)

(** [2 ^ (- j)] is a valid, non-negative binary64 number. *)
Lemma valid_pow2_neg (j : Z) :
  0 <= j <= 1022 -> valid (pow2_neg j) = true /\ leb zero (pow2_neg j) = true.
Proof.
  intros Hj. split; [ | reflexivity ].
  unfold valid, valid_binary, SpecFloat.bounded, canonical_mantissa, pow2_neg.
  change (Zpos (digits2_pos (Z.to_pos (2 ^ 52)))) with 53.
  rewrite fexp_eq. apply andb_true_intro. split.
  - apply Z.eqb_eq. lia.
  - apply Z.leb_le. unfold emax, prec. lia.
Qed.

(** Multiplying by [2 ^ (- j)] is exact up to the floor. *)
Lemma to_int_Floor_mul_pow2 (g j : Z) :
  0 < g < 2 ^ 53 -> 0 <= j <= 1022 ->
  to_int (Floor (mul (of_int g) (pow2_neg j))) = Some (g / 2 ^ j).
Proof.
  intros Hg Hj.
  destruct (of_int_small g Hg) as (mx & ex & -> & Nx & Hex & Hmx & _).
  unfold pow2_neg.
  destruct (mul_finite false false mx (Z.to_pos (2 ^ 52)) ex (- 52 - j))
    as (k & Hk & B & ->).
  cbn [xorb]. change (Zpos (Z.to_pos (2 ^ 52))) with (2 ^ 52) in *.
  unfold normal in Nx.
  assert (D : Zdigits2 (Zpos mx * 2 ^ 52) = 105).
  { apply Zdigits2_unique; [ | lia ].
    change (2 ^ (105 - 1)) with (2 ^ 52 * 2 ^ 52).
    change (2 ^ 105) with (2 ^ 53 * 2 ^ 52). lia. }
  rewrite D, fexp_eq in Hk. assert (k = 52) as -> by lia.
  rewrite rne_exact by lia.
  assert (Px : 0 < 2 ^ (- ex)) by (apply Z.pow_pos_nonneg; lia).
  assert (Pj : 0 < 2 ^ j) by (apply Z.pow_pos_nonneg; lia).
  rewrite to_int_Floor_pack by lia. f_equal.
  replace (- (ex + (- 52 - j) + 52)) with (j + - ex) by lia.
  rewrite Z.pow_add_r, Hmx by lia.
  apply Z.div_mul_cancel_r; lia.
Qed.

(** The scale-down branch under a factor [2 ^ (- j)]. *)
Lemma dampReplicas_pow2 (config : Config) (cur b j : Z) :
  0 <= j <= 1022 -> ScaleFactor config = pow2_neg j ->
  0 <= b <= cur -> cur <= GoInt.max_int32 ->
  dampReplicas config cur b = Some (b + (cur - b) / 2 ^ j).
Proof.
  intros Hj Hf Hb Hc.
  assert (Pj : 0 < 2 ^ j) by (apply Z.pow_pos_nonneg; lia).
  destruct (Z.eq_dec cur b) as [-> | N].
  - rewrite dampReplicas_grow by lia. rewrite Z.sub_diag, Z.div_0_l by lia.
    f_equal. lia.
  - unfold dampReplicas, GoInt.sub, GoInt.add. unfold GoInt.max_int32 in *.
    destruct (Z.ltb_spec b cur); [ | lia ].
    rewrite wrap_id by (unfold GoInt.min_int, GoInt.max_int; lia).
    rewrite Hf, to_int_Floor_mul_pow2 by lia. cbn [bind].
    assert (0 <= (cur - b) / 2 ^ j <= cur - b).
    { split; [ apply Z.div_pos; lia | ].
      apply Z.div_le_upper_bound; [ lia | nia ]. }
    rewrite wrap_id by (unfold GoInt.min_int, GoInt.max_int; lia).
    f_equal. lia.
Qed.

(** X11: when the damping factor is [2 ^ (- j)] (1, 0.5, 0.25, ...)
    the float arithmetic of the scale-down branch is exact: the target
    is the bounded value plus the gap divided by [2 ^ j], rounded
    down. *)
Theorem damping_power_of_two (config : Config) (p cur b j : Z) :
  0 <= MinPods config <= MaxPods config ->
  0 <= j <= 1022 -> ScaleFactor config = pow2_neg j ->
  0 <= cur <= GoInt.max_int32 ->
  boundedReplicas config p = Some b -> b < cur ->
  decide config p cur = Some (b + (cur - b) / 2 ^ j).
Proof.
  intros Hb Hj Hf Hc B S.
  pose proof (bounded_nonneg config p b Hb B) as Hbb.
  rewrite (decide_bounded _ _ _ _ B).
  apply dampReplicas_pow2; trivial; lia.
Qed.

Lemma damping_power_of_two_witness :
  decide (example_config (pow2_neg 1)) 0 8 = Some (1 + (8 - 1) / 2 ^ 1).
Proof.
  apply (damping_power_of_two (example_config (pow2_neg 1)) 0 8 1 1).
  - cbn. lia.
  - lia.
  - reflexivity.
  - unfold GoInt.max_int32. lia.
  - reflexivity.
  - lia.
Defined.

(** X12: on an unchanged backlog and with the damping factor
    [2 ^ (- j)], the count left above the bounded value after [n]
    iterations is the initial surplus divided by [2 ^ (j * n)], rounded
    down: with 0.5 the surplus halves every iteration. *)
Theorem settle_power_of_two (config : Config) (p b j : Z) :
  0 <= MinPods config <= MaxPods config ->
  0 <= j <= 1022 -> ScaleFactor config = pow2_neg j ->
  boundedReplicas config p = Some b ->
  forall (n : nat) (cur : Z),
    b <= cur <= GoInt.max_int32 ->
    settle config p cur n = Some (b + (cur - b) / 2 ^ (j * Z.of_nat n)).
Proof.
  intros Hb Hj Hf B.
  pose proof (bounded_nonneg config p b Hb B) as Hbb.
  assert (Pj : 0 < 2 ^ j) by (apply Z.pow_pos_nonneg; lia).
  induction n as [ | n IH ]; intros cur Hc.
  - cbn [settle]. rewrite Z.mul_0_r, Z.pow_0_r, Z.div_1_r. f_equal. lia.
  - cbn [settle]. rewrite (decide_bounded _ _ _ _ B).
    rewrite (dampReplicas_pow2 config cur b j) by (trivial; lia).
    assert (0 <= (cur - b) / 2 ^ j <= cur - b).
    { split; [ apply Z.div_pos; lia | ].
      apply Z.div_le_upper_bound; [ lia | nia ]. }
    rewrite IH by lia. f_equal. f_equal.
    replace (b + (cur - b) / 2 ^ j - b) with ((cur - b) / 2 ^ j) by lia.
    assert (Pn : 0 < 2 ^ (j * Z.of_nat n)) by (apply Z.pow_pos_nonneg; nia).
    rewrite Z.div_div by lia.
    rewrite <- Z.pow_add_r by nia. f_equal. f_equal. lia.
Qed.

Lemma settle_power_of_two_witness :
  settle (example_config (pow2_neg 1)) 0 9 3 = Some (1 + (9 - 1) / 2 ^ (1 * Z.of_nat 3)).
Proof.
  apply (settle_power_of_two (example_config (pow2_neg 1)) 0 1 1).
  - cbn. lia.
  - lia.
  - reflexivity.
  - reflexivity.
  - unfold GoInt.max_int32. lia.
Defined.

(** ** Factors and divisors the startup lets through *)

(** A positive [int] converts to a finite positive number. *)
Lemma of_int_pos_finite (z : Z) :
  0 < z <= GoInt.max_int -> exists m e, of_int z = S754_finite false m e.
Proof.
  unfold GoInt.max_int. intros Hz.
  destruct (Z_lt_le_dec z (2 ^ 53)) as [ S | L ].
  - destruct (of_int_small z ltac:(lia)) as (m & e & E & _). eauto.
  - destruct (of_int_large z ltac:(lia)) as (m & e & E & _). eauto.
Qed.

(** A NaN or infinite product has no defined conversion to [int]. *)
Lemma to_int_Floor_mul_nan (x : float64) : to_int (Floor (mul x S754_nan)) = None.
Proof. destruct x; reflexivity. Qed.

Lemma to_int_Floor_mul_infinity (x : float64) (s : bool) :
  to_int (Floor (mul x (S754_infinity s))) = None.
Proof. destruct x; reflexivity. Qed.

(** A positive gap times NaN or an infinity is that NaN or infinity. *)
Lemma Floor_mul_nonfinite (g : Z) (f : float64) :
  0 < g <= GoInt.max_int ->
  f = S754_nan \/ (exists s, f = S754_infinity s) ->
  Floor (mul (of_int g) f) = f.
Proof.
  intros Hg Hf. destruct (of_int_pos_finite g Hg) as (m & e & ->).
  destruct Hf as [ -> | (s & ->) ]; reflexivity.
Qed.

(** X13: with a damping factor that is NaN or an infinity (the startup
    checks only that [SCALE_FACTOR] parses) scaling up is not affected.
    For a shrink the language defines no decision: the product is that
    NaN or infinity, and the program goes on with what the machine gives
    for its conversion to [int].  The target is the bounded value plus
    that number, whatever the current count, and the iteration issues an
    update for it unless it happens to be the current count. *)
Theorem nonfinite_damping (config : Config) (impl : float64 -> Z) (p b : Z) :
  ScaleFactor config = S754_nan \/
  (exists s, ScaleFactor config = S754_infinity s) ->
  boundedReplicas config p = Some b ->
  (forall cur, cur <= b ->
     decide config p cur = Some b /\ decideOn impl config p cur = b) /\
  (forall cur, b < cur -> decide config p cur = None) /\
  (forall cur, 0 < cur - b <= GoInt.max_int ->
     decideOn impl config p cur =
       GoInt.add (GoInt.wrap (impl (ScaleFactor config))) b /\
     forall debug c queue currentScale,
       QueueInspect c (QueueName config) = Ok queue ->
       GetScale c (Namespace config) (Deployment config) = Ok currentScale ->
       Messages queue = p -> Replicas currentScale = cur -> Convert c = impl ->
       updates (fst (tick config debug c)) =
         if GoInt.add (GoInt.wrap (impl (ScaleFactor config))) b =? cur then []
         else [apply_call config currentScale
                 (GoInt.add (GoInt.wrap (impl (ScaleFactor config))) b)]).
Proof.
  intros Hf B.
  assert (RB : boundReplicas config (rawReplicasOn impl config p) = b).
  { unfold boundedReplicas in B.
    destruct (rawReplicas config p) as [ r | ] eqn:R; [ | discriminate ].
    rewrite (rawReplicasOn_defined impl config p r R).
    cbn [option_map] in B. congruence. }
  split; [ | split ].
  - intros cur G.
    assert (D : decide config p cur = Some b)
      by (rewrite (decide_bounded _ _ _ _ B); apply dampReplicas_grow; exact G).
    split; [ exact D | apply decideOn_defined; exact D ].
  - intros cur S. rewrite (decide_bounded _ _ _ _ B). unfold dampReplicas.
    destruct (Z.ltb_spec b cur); [ | lia ].
    destruct Hf as [-> | (s & ->)];
      [ rewrite to_int_Floor_mul_nan | rewrite to_int_Floor_mul_infinity ];
      reflexivity.
  - intros cur G.
    assert (D : decideOn impl config p cur =
                GoInt.add (GoInt.wrap (impl (ScaleFactor config))) b).
    { unfold decideOn. rewrite RB. unfold dampReplicasOn, GoInt.sub.
      destruct (Z.ltb_spec b cur); [ | lia ].
      rewrite wrap_id by (unfold GoInt.min_int, GoInt.max_int in *; lia).
      rewrite Floor_mul_nonfinite by trivial.
      unfold to_int_impl.
      destruct Hf as [ E | (s & E) ]; rewrite E; reflexivity. }
    split; [ exact D | ].
    intros debug c queue currentScale Hq Hs Hp Hcur Hc.
    rewrite (tick_updates config debug c queue currentScale Hq Hs).
    rewrite Hp, Hcur, Hc, D. reflexivity.
Qed.

Lemma nonfinite_damping_witness :
  decide (example_config S754_nan) 25 1 = Some 3 /\
  decide (example_config S754_nan) 0 5 = None /\
  decideOn amd64 (example_config S754_nan) 0 5 = GoInt.min_int + 1 /\
  fst (tick (example_config S754_nan) false (example_collaborators 0 5)) =
    [EQueueInspect "builds"; EGetScale "ci" "worker";
     EUpdateScale "ci" "worker"
       {| Name := "worker"; ScaleNamespace := "ci"; Replicas := 1 |};
     EPrintln (ScaledTo (GoInt.min_int + 1)); ESleep 30000000000].
Proof.
  pose proof (nonfinite_damping (example_config S754_nan) amd64 25 3
                (or_introl eq_refl) eq_refl) as (G & _).
  pose proof (nonfinite_damping (example_config S754_nan) amd64 0 1
                (or_introl eq_refl) eq_refl) as (_ & N & S).
  assert (L1 : 1 <= 3) by lia. assert (L2 : 1 < 5) by lia.
  assert (L3 : 0 < 5 - 1 <= GoInt.max_int) by (unfold GoInt.max_int; lia).
  split; [ exact (proj1 (G 1 L1)) | ]. split; [ exact (N 5 L2) | ].
  split; [ rewrite (proj1 (S 5 L3)); reflexivity | reflexivity ].
Defined.

(** Nothing divided by zero converts to an [int]. *)
Lemma to_int_Ceil_div_zero (x : float64) (s : bool) :
  to_int (Ceil (div x (S754_zero s))) = None.
Proof. destruct x; reflexivity. Qed.

(** X14: with [MSG_PER_POD] zero (the startup checks only that it
    parses) the language defines no raw count and no decision, whatever
    the backlog.  The program goes on with what the machine gives: the
    raw count is its conversion of plus infinity for every non-empty
    queue and of NaN for an empty one, so the size of the backlog no
    longer matters, and the two bound checks still bring it within
    ordered bounds. *)
Theorem zero_divisor (config : Config) (impl : float64 -> Z) (p cur : Z) :
  MsgPerPod config = 0 ->
  rawReplicas config p = None /\
  decide config p cur = None /\
  (0 < p <= GoInt.max_int ->
   rawReplicasOn impl config p = GoInt.wrap (impl (S754_infinity false))) /\
  (p = 0 -> rawReplicasOn impl config p = GoInt.wrap (impl S754_nan)) /\
  (MinPods config <= MaxPods config ->
   MinPods config <= boundReplicas config (rawReplicasOn impl config p)
     <= MaxPods config).
Proof.
  intros Hm.
  assert (R : rawReplicas config p = None).
  { unfold rawReplicas. rewrite Hm. change (of_int 0) with (S754_zero false).
    apply to_int_Ceil_div_zero. }
  split; [ exact R | ].
  split; [ unfold decide; rewrite R; reflexivity | ].
  split; [ | split ].
  - intros Hp. unfold rawReplicasOn. rewrite Hm.
    destruct (of_int_pos_finite p Hp) as (m & e & ->). reflexivity.
  - intros ->. unfold rawReplicasOn. rewrite Hm. reflexivity.
  - intros Hb. rewrite boundReplicas_min_max. lia.
Qed.

Lemma zero_divisor_witness :
  rawReplicas zero_config 5 = None /\
  rawReplicasOn amd64 zero_config 5 = GoInt.min_int /\
  fst (tick zero_config false (example_collaborators 5 3)) =
    [EQueueInspect "builds"; EGetScale "ci" "worker";
     EUpdateScale "ci" "worker"
       {| Name := "worker"; ScaleNamespace := "ci"; Replicas := 2 |};
     EPrintln (ScaledTo 2); ESleep 30000000000].
Proof.
  pose proof (zero_divisor zero_config amd64 5 3 eq_refl) as (R & _ & I & _).
  assert (L : 0 < 5 <= GoInt.max_int) by (unfold GoInt.max_int; lia).
  split; [ exact R | ]. split; [ rewrite (I L); reflexivity | reflexivity ].
Defined.

(** The sign passes through rounding, conversion, division and the
    rounding to an integral value. *)
Lemma binary_round_aux_negb (s : bool) (m e : Z) (l : location) :
  binary_round_aux prec emax (negb s) m e l =
  SFopp (binary_round_aux prec emax s m e l).
Proof.
  unfold binary_round_aux.
  destruct (shr_fexp prec emax m e l) as [mrs' e'].
  destruct (shr_fexp prec emax _ e' loc_Exact) as [mrs'' e''].
  destruct (shr_m mrs''); [ reflexivity | | reflexivity ].
  destruct (e'' <=? emax - prec); reflexivity.
Qed.

Lemma of_int_opp (z : Z) : z <> 0 -> of_int (- z) = SFopp (of_int z).
Proof.
  intros Hz. destruct z as [ | q | q ]; [ contradiction | | ];
    cbn [Z.opp]; unfold of_int, binary_normalize, binary_round;
    destruct (shl_align q 0 _) as [mz ez].
  - apply (binary_round_aux_negb false).
  - rewrite (binary_round_aux_negb true), (binary_round_aux_negb false).
    cbn [negb].
    destruct (binary_round_aux prec emax true (Zpos mz) ez loc_Exact);
      reflexivity.
Qed.

Lemma div_opp_r (x y : float64) : div x (SFopp y) = SFopp (div x y).
Proof.
  unfold div, SFdiv.
  destruct x as [sx | sx | | sx mx ex]; destruct y as [sy | sy | | sy my ey];
    cbn [SFopp]; try reflexivity;
    replace (xorb sx (negb sy)) with (negb (xorb sx sy))
      by (destruct sx, sy; reflexivity);
    try reflexivity.
  destruct (SFdiv_core_binary prec emax (Zpos mx) ex (Zpos my) ey) as [[mz ez] lz].
  apply binary_round_aux_negb.
Qed.

Lemma Ceil_opp (x : float64) : Ceil (SFopp x) = SFopp (Floor x).
Proof.
  destruct x as [s | s | | s m e]; try reflexivity.
  cbn [SFopp Ceil Floor]. destruct (0 <=? e); [ reflexivity | ].
  replace (- smant (negb s) m) with (smant s m)
    by (unfold smant; destruct s; cbn; lia).
  destruct (Z.eqb_spec (smant s m / 2 ^ (- e)) 0) as [-> | N].
  - reflexivity.
  - destruct (Z.eqb_spec (- (smant s m / 2 ^ (- e))) 0); [ lia | ].
    apply of_int_opp. exact N.
Qed.

(** Negation passes through the conversion to [int], the least [int]
    apart. *)
Lemma to_int_opp (x : float64) (v : Z) :
  to_int x = Some v -> - GoInt.max_int <= v ->
  to_int (SFopp x) = Some (- v).
Proof.
  destruct x as [s | s | | s m e]; try discriminate.
  - intros [= <-] _. reflexivity.
  - cbn [SFopp to_int].
    assert (E : smant (negb s) m = - smant s m)
      by (unfold smant; destruct s; cbn; lia).
    rewrite E.
    assert (P : 0 < 2 ^ (- e) \/ 0 <= e).
    { destruct (Z_lt_le_dec e 0); [ left; apply Z.pow_pos_nonneg; lia | right; lia ]. }
    set (v0 := if 0 <=? e then smant s m * 2 ^ e else smant s m ÷ 2 ^ (- e)).
    assert (E' : (if 0 <=? e then - smant s m * 2 ^ e
                  else - smant s m ÷ 2 ^ (- e)) = - v0).
    { subst v0. destruct (Z.leb_spec 0 e); [ ring | ].
      apply Z.quot_opp_l. destruct P; lia. }
    rewrite E'.
    destruct (Z.leb_spec GoInt.min_int v0); destruct (Z.leb_spec v0 GoInt.max_int);
      cbn [andb]; try discriminate.
    intros [= <-] Hv.
    destruct (Z.leb_spec GoInt.min_int (- v0));
      destruct (Z.leb_spec (- v0) GoInt.max_int); cbn [andb]; try reflexivity;
      unfold GoInt.min_int, GoInt.max_int in *; lia.
Qed.

(** [int(math.Floor(float64(p) / float64(m)))] is the integer quotient
    of [p] by [m] for every backlog below 2^53 and every positive
    divisor below 2^64. *)
Lemma to_int_Floor_div (p m : Z) :
  0 <= p < 2 ^ 53 -> 0 < m < 2 ^ 64 ->
  to_int (Floor (div (of_int p) (of_int m))) = Some (p / m).
Proof.
  intros Hp Hm.
  destruct (Z.eq_dec p 0) as [-> | Np].
  - rewrite Z.div_0_l by lia.
    destruct (Z_lt_le_dec m (2 ^ 53)) as [S | L].
    + destruct (of_int_small m ltac:(lia)) as (my & ey & -> & _).
      reflexivity.
    + destruct (of_int_large m ltac:(lia)) as (my & ey & -> & _).
      reflexivity.
  - destruct (of_int_small p ltac:(lia)) as (mx & ex & -> & Nx & Hex & Hmx & _).
    assert (Px : 0 < 2 ^ (- ex)) by (apply Z.pow_pos_nonneg; lia).
    assert (W : 2 ^ (53 - ex) = 2 ^ 53 * 2 ^ (- ex)).
    { rewrite <- Z.pow_add_r by lia. f_equal; lia. }
    destruct (Z_lt_le_dec m (2 ^ 53)) as [S | L].
    + destruct (of_int_small m ltac:(lia)) as (my & ey & -> & Ny & Hey & Hmy & _).
      destruct (div_normal mx my ex ey Nx Ny ltac:(lia)) as (k & Hk & HR & ->).
      set (E := ex - ey - 53 + k).
      assert (HE : E <= 0) by (subst E; lia).
      assert (Py : 0 < 2 ^ (- ey)) by (apply Z.pow_pos_nonneg; lia).
      assert (Pk : 0 < 2 ^ k) by (apply Z.pow_pos_nonneg; lia).
      assert (PU : 0 < 2 ^ (- E)) by (apply Z.pow_pos_nonneg; lia).
      assert (G : Zpos my * 2 ^ k * 2 ^ (- E) = m * 2 ^ (53 - ex)).
      { rewrite Hmy, <- !Z.mul_assoc, <- !Z.pow_add_r by lia. do 2 f_equal; subst E; lia. }
      assert (A : Zpos mx * 2 ^ 53 = p * 2 ^ (53 - ex)) by (rewrite Hmx, W; ring).
      assert (K2 : 2 ^ k <= 2) by (destruct Hk as [-> | ->]; cbv; congruence).
      unfold normal in Nx, Ny.
      set (D := Zpos my * 2 ^ k) in *.
      set (R := rne (Zpos mx * 2 ^ 53) D) in *.
      assert (HD : 0 < D) by (subst D; apply Z.mul_pos_pos; lia).
      assert (PW : 0 < 2 ^ (53 - ex)) by (apply Z.pow_pos_nonneg; lia).
      assert (HD2 : D < 2 * 2 ^ (53 - ex)).
      { rewrite W. subst D.
        assert (Zpos my * 2 ^ k <= Zpos my * 2)
          by (apply Z.mul_le_mono_nonneg_l; lia).
        assert (2 ^ 53 * 1 <= 2 ^ 53 * 2 ^ (- ex))
          by (apply Z.mul_le_mono_nonneg_l; lia).
        lia. }
      pose proof (Z.div_mod p m ltac:(lia)) as DM.
      pose proof (Z.mod_pos_bound p m ltac:(lia)) as MB.
      assert (Hn : 0 <= p / m) by (apply Z.div_pos; lia).
      set (n := p / m) in *. set (r := p mod m) in *. clearbody n r.
      set (X := 2 ^ (53 - ex)) in *.
      assert (PX : p * X = n * (m * X) + r * X) by (rewrite DM at 1; ring).
      assert (RX : 0 <= r * X <= (m - 1) * X).
      { split; [ apply Z.mul_nonneg_nonneg; lia | ].
        apply Z.mul_le_mono_nonneg_r; lia. }
      assert (LO : n * 2 ^ (- E) <= R).
      { apply rne_ge; trivial. rewrite A.
        replace (n * 2 ^ (- E) * D) with (n * (D * 2 ^ (- E))) by ring.
        rewrite G. lia. }
      assert (UP : R < (n + 1) * 2 ^ (- E)).
      { apply rne_lt; trivial. rewrite A.
        replace ((2 * ((n + 1) * 2 ^ (- E)) - 1) * D)
          with (2 * (n + 1) * (D * 2 ^ (- E)) - D) by ring.
        rewrite G. lia. }
      rewrite to_int_Floor_pack by trivial. f_equal.
      symmetry. apply (Z.div_unique_pos _ _ _ (R - n * 2 ^ (- E))); lia.
    + destruct (of_int_large m ltac:(lia)) as (my & ey & -> & Ny & Hey & Hmy).
      destruct (div_normal mx my ex ey Nx Ny ltac:(lia)) as (k & Hk & HR & ->).
      set (E := ex - ey - 53 + k).
      assert (HE : E <= 0) by (subst E; lia).
      assert (Py : 0 < 2 ^ ey) by (apply Z.pow_pos_nonneg; lia).
      assert (Pk : 0 < 2 ^ k) by (apply Z.pow_pos_nonneg; lia).
      assert (PU : 0 < 2 ^ (- E)) by (apply Z.pow_pos_nonneg; lia).
      assert (G : Zpos my * 2 ^ k * 2 ^ (- E) = Zpos my * 2 ^ ey * 2 ^ (53 - ex)).
      { rewrite <- !Z.mul_assoc, <- !Z.pow_add_r by lia. do 2 f_equal; subst E; lia. }
      assert (A : Zpos mx * 2 ^ 53 = p * 2 ^ (53 - ex)) by (rewrite Hmx, W; ring).
      assert (K2 : 2 ^ k <= 2) by (destruct Hk as [-> | ->]; cbv; congruence).
      unfold normal in Nx, Ny.
      set (D := Zpos my * 2 ^ k) in *.
      set (R := rne (Zpos mx * 2 ^ 53) D) in *.
      assert (HD : 0 < D) by (subst D; apply Z.mul_pos_pos; lia).
      assert (PW : 0 < 2 ^ (53 - ex)) by (apply Z.pow_pos_nonneg; lia).
      assert (HD2 : D < 2 * 2 ^ (53 - ex)).
      { rewrite W. subst D.
        assert (Zpos my * 2 ^ k <= Zpos my * 2)
          by (apply Z.mul_le_mono_nonneg_l; lia).
        assert (2 ^ 53 * 1 <= 2 ^ 53 * 2 ^ (- ex))
          by (apply Z.mul_le_mono_nonneg_l; lia).
        lia. }
      set (X := 2 ^ (53 - ex)) in *.
      assert (PX : (p + 1) * X <= Zpos my * 2 ^ ey * X)
        by (apply Z.mul_le_mono_nonneg_r; lia).
      assert (UP : R < 1 * 2 ^ (- E)).
      { apply rne_lt; trivial. rewrite A.
        replace ((2 * (1 * 2 ^ (- E)) - 1) * D)
          with (2 * (D * 2 ^ (- E)) - D) by ring.
        rewrite G. lia. }
      rewrite to_int_Floor_pack by trivial. f_equal.
      rewrite (Z.div_small p m) by lia.
      apply Z.div_small. lia.
Qed.

(** The ceiling of a quotient by a negative divisor. *)
Lemma ceil_div_neg (p m : Z) : m < 0 -> ceil_div p m = - (p / - m).
Proof.
  intros Hm. unfold ceil_div. f_equal.
  rewrite <- (Z.div_opp_opp (- p) m) by lia. f_equal. lia.
Qed.

(** [int(math.Ceil(float64(p) / float64(m)))] is the integer ceiling of
    [p / m] for a negative divisor too. *)
Lemma rawReplicas_ceil_neg (config : Config) (p : Z) :
  0 <= p < 2 ^ 53 -> GoInt.min_int <= MsgPerPod config < 0 ->
  rawReplicas config p = Some (ceil_div p (MsgPerPod config)).
Proof.
  intros Hp Hm. unfold rawReplicas. unfold GoInt.min_int in Hm.
  set (m := MsgPerPod config) in *.
  replace m with (- - m) at 1 by lia.
  rewrite of_int_opp, div_opp_r, Ceil_opp by lia.
  rewrite (to_int_opp _ (p / - m)).
  - rewrite ceil_div_neg by lia. reflexivity.
  - apply to_int_Floor_div; lia.
  - assert (0 <= p / - m) by (apply Z.div_pos; lia).
    unfold GoInt.max_int. lia.
Qed.

(** X15: with a negative [MSG_PER_POD] (the startup checks only that
    it parses) and a backlog below 2^53 the raw count is the exact
    ceiling of a quotient that is not positive, so with ordered
    non-negative bounds the bounded value is the minimum whatever the
    backlog, and the decision is the damping of the current count
    towards the minimum. *)
Theorem negative_divisor (config : Config) (p cur : Z) :
  GoInt.min_int <= MsgPerPod config < 0 -> 0 <= p < 2 ^ 53 ->
  0 <= MinPods config <= MaxPods config ->
  exists r,
    rawReplicas config p = Some r /\ r = ceil_div p (MsgPerPod config) /\
    r <= 0 /\
    boundedReplicas config p = Some (MinPods config) /\
    decide config p cur = dampReplicas config cur (MinPods config).
Proof.
  intros Hm Hp Hb.
  pose proof (rawReplicas_ceil_neg config p Hp Hm) as R.
  assert (N : ceil_div p (MsgPerPod config) <= 0).
  { rewrite ceil_div_neg by lia.
    assert (0 <= p / - MsgPerPod config) by (apply Z.div_pos; lia). lia. }
  assert (B : boundedReplicas config p = Some (MinPods config)).
  { unfold boundedReplicas. rewrite R. cbn [option_map]. f_equal.
    rewrite boundReplicas_min_max. lia. }
  exists (ceil_div p (MsgPerPod config)).
  split; [ exact R | ]. split; [ reflexivity | ]. split; [ exact N | ].
  split; [ exact B | ]. apply decide_bounded. exact B.
Qed.

Lemma negative_divisor_witness :
  exists r,
    rawReplicas negative_config 1000 = Some r /\ r = ceil_div 1000 (-10) /\
    r <= 0 /\
    boundedReplicas negative_config 1000 = Some 1 /\
    decide negative_config 1000 1 = dampReplicas negative_config 1 1.
Proof.
  apply (negative_divisor negative_config 1000 1).
  - unfold GoInt.min_int. cbn. lia.
  - lia.
  - cbn. lia.
Defined.

(** ** Capacity *)

(** X16: for a positive [MSG_PER_POD] and a backlog below 2^53 the raw
    count is the least number of replicas whose capacity covers the
    backlog; it is zero only for an empty queue. *)
Theorem raw_is_least_cover (config : Config) (p : Z) :
  0 < MsgPerPod config <= GoInt.max_int -> 0 <= p < 2 ^ 53 ->
  exists r,
    rawReplicas config p = Some r /\
    0 <= r /\ p <= r * MsgPerPod config /\
    (forall r', p <= r' * MsgPerPod config -> r <= r') /\
    (r = 0 <-> p = 0).
Proof.
  intros Hm Hp. rewrite rawReplicas_ceil by trivial.
  pose proof (ceil_div_bounds p (MsgPerPod config) ltac:(lia)) as B.
  set (r := ceil_div p (MsgPerPod config)) in *.
  exists r. split; [ reflexivity | ].
  split; [ nia | ]. split; [ lia | ]. split; [ intros r' H; nia | ].
  split; intros H; nia.
Qed.

Lemma raw_is_least_cover_witness :
  exists r,
    rawReplicas (example_config half) 25 = Some r /\
    0 <= r /\ 25 <= r * 10 /\ (forall r', 25 <= r' * 10 -> r <= r') /\
    (r = 0 <-> 25 = 0).
Proof.
  apply (raw_is_least_cover (example_config half) 25).
  - unfold GoInt.max_int. cbn. lia.
  - lia.
Defined.

(** ** What an update carries *)

(** With a factor of at most 1 the target lies between the minimum and
    the larger of the maximum and the current count. *)
Lemma decide_unit_range (config : Config) (p cur : Z) :
  valid_params config -> leb (ScaleFactor config) one = true ->
  0 <= p < 2 ^ 53 -> 0 <= cur <= GoInt.max_int32 ->
  exists target,
    decide config p cur = Some target /\
    MinPods config <= target <= Z.max (MaxPods config) cur.
Proof.
  intros (Hb & Hmax & Hm & V & L0) L1 Hp Hc.
  pose proof (bounded_eq config p Hp Hm) as B.
  rewrite (decide_bounded _ _ _ _ B).
  set (b := Z.min (MaxPods config) (Z.max (MinPods config) (ceil_div p (MsgPerPod config)))) in *.
  assert (Hbb : MinPods config <= b <= MaxPods config) by (subst b; lia).
  destruct (Z_lt_le_dec b cur) as [S | G].
  - destruct (dampReplicas_unit config cur b) as (t & -> & Ht); trivial; try lia.
    exists t. split; [ reflexivity | lia ].
  - rewrite dampReplicas_grow by trivial. exists b. split; [ reflexivity | lia ].
Qed.

(** X17: for valid parameters with a damping factor of at most 1 and a
    maximum that fits an [int32], the conversion [int32(replicas)] never
    truncates: an update, when there is one, carries the decided target
    itself, which differs from the count read and is at least the
    minimum; the name and namespace are those of the scale read. *)
Theorem apply_carries_target (config : Config) (debug : bool) (c : Collaborators)
    (queue : Queue) (currentScale : Scale) :
  valid_params config -> leb (ScaleFactor config) one = true ->
  MaxPods config <= GoInt.max_int32 ->
  QueueInspect c (QueueName config) = Ok queue ->
  GetScale c (Namespace config) (Deployment config) = Ok currentScale ->
  0 <= Messages queue < 2 ^ 53 -> 0 <= Replicas currentScale <= GoInt.max_int32 ->
  updates (fst (tick config debug c)) = [] \/
  exists target,
    decide config (Messages queue) (Replicas currentScale) = Some target /\
    updates (fst (tick config debug c)) =
      [EUpdateScale (Namespace config) (Deployment config)
         {| Name := Name currentScale;
            ScaleNamespace := ScaleNamespace currentScale;
            Replicas := target |}] /\
    target <> Replicas currentScale /\
    MinPods config <= target <= GoInt.max_int32.
Proof.
  intros VP L1 HM Hq Hs Hp Hc.
  destruct (decide_unit_range config _ _ VP L1 Hp Hc) as (t & D & Ht).
  rewrite (tick_updates_defined config debug c queue currentScale t Hq Hs D), D.
  destruct (Z.eqb_spec t (Replicas currentScale)) as [E | N]; [ left; reflexivity | ].
  right. exists t. split; [ reflexivity | ].
  assert (R : MinPods config <= t <= GoInt.max_int32) by lia.
  destruct VP as (Hb & _).
  split; [ | split; [ exact N | exact R ] ].
  unfold apply_call. rewrite wrap32_id; [ reflexivity | ].
  unfold GoInt.min_int32, GoInt.max_int32 in *. lia.
Qed.

Lemma apply_carries_target_witness :
  updates (fst (tick (example_config half) false (example_collaborators 25 1))) = [] \/
  exists target,
    decide (example_config half) 25 1 = Some target /\
    updates (fst (tick (example_config half) false (example_collaborators 25 1))) =
      [EUpdateScale "ci" "worker"
         {| Name := "worker"; ScaleNamespace := "ci"; Replicas := target |}] /\
    target <> 1 /\ 1 <= target <= GoInt.max_int32.
Proof.
  refine (apply_carries_target (example_config half) false (example_collaborators 25 1)
            {| Messages := 25 |}
            {| Name := "worker"; ScaleNamespace := "ci"; Replicas := 1 |}
            valid_params_example eq_refl _ eq_refl eq_refl _ _).
  - unfold GoInt.max_int32. cbn. lia.
  - cbn. lia.
  - unfold GoInt.max_int32. cbn. lia.
Defined.

(** One wrap-around of the conversion to [int32]. *)
Lemma wrap32_over (z : Z) :
  GoInt.max_int32 < z < 2 ^ 32 -> GoInt.wrap32 z = z - 2 ^ 32.
Proof.
  unfold GoInt.max_int32, GoInt.wrap32. intros H.
  rewrite <- (Z.mod_unique (z + 2 ^ 31) (2 ^ 32) 1 (z + 2 ^ 31 - 2 ^ 32)); lia.
Qed.

(** X18: a growth target beyond [int32] (a maximum above 2147483647
    allows one) is truncated by [int32(replicas)]: below 2^32 the update
    carries the target minus 2^32, a negative count, while the line
    printed after it reports the target itself. *)
Theorem large_target_wraps (config : Config) (c : Collaborators)
    (queue : Queue) (currentScale : Scale) (b : Z) :
  QueueInspect c (QueueName config) = Ok queue ->
  GetScale c (Namespace config) (Deployment config) = Ok currentScale ->
  boundedReplicas config (Messages queue) = Some b ->
  Replicas currentScale < b -> GoInt.max_int32 < b < 2 ^ 32 ->
  (forall debug,
     updates (fst (tick config debug c)) =
       [EUpdateScale (Namespace config) (Deployment config)
          {| Name := Name currentScale;
             ScaleNamespace := ScaleNamespace currentScale;
             Replicas := b - 2 ^ 32 |}]) /\
  b - 2 ^ 32 < 0 /\
  (snd (tick config false c) = Slept ->
   prints (fst (tick config false c)) = [EPrintln (ScaledTo b)]).
Proof.
  intros Hq Hs B G Hb.
  assert (D : decide config (Messages queue) (Replicas currentScale) = Some b).
  { rewrite (decide_bounded _ _ _ _ B). apply dampReplicas_grow. lia. }
  split; [ | split; [ lia | ] ].
  - intros debug.
    rewrite (tick_updates_defined config debug c queue currentScale b Hq Hs D).
    destruct (Z.eqb_spec b (Replicas currentScale)); [ lia | ].
    unfold apply_call. rewrite wrap32_over by trivial. reflexivity.
  - pose proof (decideOn_defined (Convert c) _ _ _ _ D) as D'.
    unfold decideOn in D'. unfold tick. rewrite Hq, Hs. cbv zeta. rewrite D'.
    destruct (Z.eqb_spec b (Replicas currentScale)); [ lia | ]. cbn [negb].
    destruct (UpdateScale c _ _ _) as [ [] | err ]; cbn [fst snd]; [ | discriminate ].
    intros _. cbn. reflexivity.
Qed.

Lemma large_target_wraps_witness :
  updates (fst (tick huge_config false (example_collaborators 3000000000 1))) =
    [EUpdateScale "ci" "worker"
       {| Name := "worker"; ScaleNamespace := "ci";
          Replicas := 3000000000 - 2 ^ 32 |}] /\
  prints (fst (tick huge_config false (example_collaborators 3000000000 1))) =
    [EPrintln (ScaledTo 3000000000)].
Proof.
  assert (G : 1 < 3000000000) by lia.
  assert (Hb : GoInt.max_int32 < 3000000000 < 2 ^ 32)
    by (unfold GoInt.max_int32; lia).
  destruct (large_target_wraps huge_config (example_collaborators 3000000000 1)
              {| Messages := 3000000000 |}
              {| Name := "worker"; ScaleNamespace := "ci"; Replicas := 1 |}
              3000000000 eq_refl eq_refl eq_refl G Hb) as (U & _ & P).
  split; [ exact (U false) | exact (P eq_refl) ].
Defined.

(** ** A steady backlog *)

(** X19: on an unchanged backlog, against a deployment nobody else
    touches and with a damping factor below 1, the loop issues at most as
    many updates as the current count exceeds the bounded value by, or
    one when the count is below it; after that it only polls. *)
Theorem steady_updates_bound (config : Config) (debug : bool) (p b : Z) :
  valid_params config -> SFltb (ScaleFactor config) one = true ->
  MaxPods config <= GoInt.max_int32 ->
  boundedReplicas config p = Some b ->
  forall (cs : list Collaborators) (cur : Z),
    0 <= cur <= GoInt.max_int32 ->
    steady config p cur cs ->
    (List.length (updates (fst (loop config debug cs))) <= steps_to b cur)%nat.
Proof.
  intros (Hb & Hmax & Hm & V & L0) L1 HM B.
  pose proof (bounded_nonneg config p b Hb B) as Hbb.
  induction cs as [ | c cs IH ]; intros cur Hc St; [ cbn; lia | ].
  inversion St as [ | cur' c' cs' queue currentScale Hq Hp Hs Hcur Next ]; subst cur' c' cs'.
  rewrite loop_cons.
  assert (U : forall t, dampReplicas config cur b = Some t ->
                        updates (fst (tick config debug c)) =
                        if t =? cur then [] else [apply_call config currentScale t]).
  { intros t D. rewrite <- Hcur.
    apply (tick_updates_defined config debug c queue currentScale t Hq Hs).
    rewrite Hp, Hcur, (decide_bounded _ _ _ _ B). exact D. }
  assert (D : exists t, dampReplicas config cur b = Some t /\
                        0 <= t <= GoInt.max_int32 /\
                        (S (steps_to b t) <= steps_to b cur)%nat \/
                        (t = cur /\ cur = b)).
  { destruct (Z_lt_le_dec b cur) as [S | G].
    - destruct (dampReplicas_below config cur b) as (t & D & Ht); trivial; try lia.
      exists t. left. split; [ exact D | ]. split; [ lia | ].
      unfold steps_to. destruct (Z.ltb_spec t b); destruct (Z.ltb_spec cur b); lia.
    - exists b. rewrite dampReplicas_grow by trivial.
      destruct (Z.eq_dec cur b) as [-> | N].
      + right. split; reflexivity.
      + left. split; [ reflexivity | ]. split; [ lia | ].
        unfold steps_to. destruct (Z.ltb_spec b b); destruct (Z.ltb_spec cur b); lia. }
  destruct D as (t & [ (D & Ht & Hsteps) | (-> & ->) ]).
  - specialize (U t D). specialize (Next t).
    rewrite (decide_bounded _ _ _ _ B), D in Next. specialize (Next eq_refl).
    specialize (IH t Ht Next).
    assert (U1 : (List.length (updates (fst (tick config debug c))) <= 1)%nat)
      by (rewrite U; destruct (t =? cur); cbn; lia).
    destruct (snd (tick config debug c)); cbn [fst snd];
      rewrite ?updates_app, ?length_app; lia.
  - specialize (U b (dampReplicas_grow config b b ltac:(lia))).
    rewrite Z.eqb_refl in U. specialize (Next b).
    rewrite (decide_bounded _ _ _ _ B), dampReplicas_grow in Next by lia.
    specialize (IH b Hc (Next eq_refl)).
    destruct (snd (tick config debug c)); cbn [fst snd];
      rewrite ?updates_app, ?length_app, U; cbn [List.length]; lia.
Qed.

Lemma steady_updates_bound_witness :
  (List.length (updates (fst (loop (example_config half) false
      [example_collaborators 0 5; example_collaborators 0 3;
       example_collaborators 0 2; example_collaborators 0 1;
       example_collaborators 0 1]))) <= steps_to 1 5)%nat.
Proof.
  assert (C : 0 <= 5 <= GoInt.max_int32) by (unfold GoInt.max_int32; lia).
  assert (HM : MaxPods (example_config half) <= GoInt.max_int32)
    by (unfold GoInt.max_int32; cbn; lia).
  apply (steady_updates_bound (example_config half) false 0 1 valid_params_example
           eq_refl HM eq_refl _ 5 C).
  eapply steady_cons; try reflexivity. intros t [= <-].
  eapply steady_cons; try reflexivity. intros t [= <-].
  eapply steady_cons; try reflexivity. intros t [= <-].
  eapply steady_cons; try reflexivity. intros t [= <-].
  eapply steady_cons; try reflexivity. intros t [= <-].
  apply steady_nil.
Defined.

(** ** Reading the configuration *)

Section StartupFacts.

Variable ParseFloat : string -> option float64.

(** Whether a setting is refused, and with what, does not depend on the
    fields already set. *)
Lemma loadField_error_indep (env : Environ) (c c' : Config) (key : Field * string)
    (p : PanicMsg) :
  loadField ParseFloat env c key = inl p -> loadField ParseFloat env c' key = inl p.
Proof.
  destruct key as [f envName]. unfold loadField.
  destruct (String.eqb (Getenv env envName) ""); [ trivial | ].
  destruct (fieldKind f).
  - discriminate.
  - destruct (Strconv.ParseInt (Getenv env envName)); [ discriminate | trivial ].
  - destruct (ParseFloat (Getenv env envName)); [ discriminate | trivial ].
Qed.

Lemma loadField_ok_indep (env : Environ) (c c' cr : Config) (key : Field * string) :
  loadField ParseFloat env c key = inr cr ->
  exists cr', loadField ParseFloat env c' key = inr cr'.
Proof.
  destruct key as [f envName]. unfold loadField.
  destruct (String.eqb (Getenv env envName) ""); [ discriminate | ].
  destruct (fieldKind f).
  - eauto.
  - destruct (Strconv.ParseInt (Getenv env envName)); [ eauto | discriminate ].
  - destruct (ParseFloat (Getenv env envName)); [ eauto | discriminate ].
Qed.

Lemma loadFields_first_failure (env : Environ) (keys : list (Field * string)) :
  forall (c : Config) (p : PanicMsg),
    loadFields ParseFloat env c keys = inl p <->
    exists before key after,
      keys = before ++ key :: after /\
      (forall k, In k before -> forall c0, exists c1, loadField ParseFloat env c0 k = inr c1) /\
      (forall c0, loadField ParseFloat env c0 key = inl p).
Proof.
  induction keys as [ | k keys IH ]; intros c p; cbn [loadFields].
  - split; [ discriminate | ]. intros (before & key & after & E & _).
    destruct before; discriminate.
  - destruct (loadField ParseFloat env c k) as [ q | c1 ] eqn:L.
    + split.
      * intros [= <-]. exists [], k, keys. split; [ reflexivity | ].
        split; [ intros k0 [] | ].
        intros c0. apply (loadField_error_indep env c c0 k q L).
      * intros (before & key & after & E & Hb & Hk).
        destruct before as [ | k0 before ]; cbn [app] in E; injection E as E1 E2;
          subst.
        -- rewrite Hk in L. congruence.
        -- destruct (Hb _ (or_introl eq_refl) c) as (c2 & L2). congruence.
    + rewrite IH. split.
      * intros (before & key & after & -> & Hb & Hk).
        exists (k :: before), key, after. split; [ reflexivity | ].
        split; [ | exact Hk ].
        intros k0 [ <- | I ] c0; [ | apply Hb; exact I ].
        apply (loadField_ok_indep env c c0 c1 k L).
      * intros (before & key & after & E & Hb & Hk).
        destruct before as [ | k0 before ]; cbn [app] in E; injection E as E1 E2;
          subst.
        -- rewrite Hk in L. discriminate.
        -- exists before, key, after. split; [ reflexivity | ].
           split; [ | exact Hk ]. intros k1 I. apply Hb. right. exact I.
Qed.

(** X20: the configuration is refused with the message of the first
    setting, in the order of [configKeys], that is missing or does not
    parse; the settings after it are not looked at. *)
Theorem loadConfig_first_failure (env : Environ) (p : PanicMsg) :
  loadConfig ParseFloat env = inl p <->
  exists before key after,
    configKeys = before ++ key :: after /\
    (forall k, In k before -> forall c0, exists c1, loadField ParseFloat env c0 k = inr c1) /\
    (forall c0, loadField ParseFloat env c0 key = inl p).
Proof. apply loadFields_first_failure. Qed.

(** What a refusal of one setting says about the environment. *)
Lemma loadField_error (env : Environ) (c : Config) (f : Field) (envName : string)
    (p : PanicMsg) :
  loadField ParseFloat env c (f, envName) = inl p ->
  (p = ConfigNotSet envName /\ Getenv env envName = ""%string) \/
  (p = ConfigNotInt (fieldName f) /\ fieldKind f = KInt /\
   Getenv env envName <> ""%string /\ Strconv.ParseInt (Getenv env envName) = None) \/
  (p = ConfigNotFloat (fieldName f) /\ fieldKind f = KFloat64 /\
   Getenv env envName <> ""%string /\ ParseFloat (Getenv env envName) = None).
Proof.
  unfold loadField.
  destruct (String.eqb_spec (Getenv env envName) "") as [E | N].
  - intros [= <-]. left. split; trivial.
  - destruct (fieldKind f) eqn:K.
    + discriminate.
    + destruct (Strconv.ParseInt (Getenv env envName)) eqn:P; [ discriminate | ].
      intros [= <-]. right. left. repeat split; trivial.
    + destruct (ParseFloat (Getenv env envName)) eqn:P; [ discriminate | ].
      intros [= <-]. right. right. repeat split; trivial.
Qed.

(** X21: what a startup panic says is true of the environment: "not
    set" names a variable of [configKeys] that is empty or absent, "not a
    valid int" a non-empty integer setting [ParseInt] rejects, "not a
    valid float64" a non-empty float setting [ParseFloat] rejects. *)
Theorem loadConfig_error_meaning (env : Environ) (p : PanicMsg) :
  loadConfig ParseFloat env = inl p ->
  exists f envName,
    In (f, envName) configKeys /\
    ((p = ConfigNotSet envName /\ Getenv env envName = ""%string) \/
     (p = ConfigNotInt (fieldName f) /\ fieldKind f = KInt /\
      Getenv env envName <> ""%string /\
      Strconv.ParseInt (Getenv env envName) = None) \/
     (p = ConfigNotFloat (fieldName f) /\ fieldKind f = KFloat64 /\
      Getenv env envName <> ""%string /\
      ParseFloat (Getenv env envName) = None)).
Proof.
  intros H. apply loadFields_first_failure in H.
  destruct H as (before & [f envName] & after & E & _ & Hk).
  exists f, envName. split.
  - rewrite E. apply in_or_app. right. left. reflexivity.
  - apply (loadField_error env emptyConfig). apply Hk.
Qed.

(** X22: the configuration depends on the nine variables of
    [configKeys] and on nothing else in the environment. *)
Theorem loadConfig_reads_nine (env env' : Environ) :
  (forall f envName, In (f, envName) configKeys ->
                     Getenv env envName = Getenv env' envName) ->
  loadConfig ParseFloat env = loadConfig ParseFloat env'.
Proof.
  intros H. unfold loadConfig. generalize emptyConfig.
  revert H. generalize configKeys. intros keys.
  induction keys as [ | [f envName] keys IH ]; intros H c; cbn [loadFields].
  - reflexivity.
  - assert (E : loadField ParseFloat env c (f, envName) =
                loadField ParseFloat env' c (f, envName)).
    { unfold loadField. rewrite (H f envName (or_introl eq_refl)). reflexivity. }
    rewrite E. destruct (loadField ParseFloat env' c (f, envName)); [ reflexivity | ].
    apply IH. intros f0 n0 I. apply (H f0). right. exact I.
Qed.

(** X23: a configuration that loads has its four integer settings in
    the range of [int64] and its four string settings non-empty. *)
Theorem loadConfig_int_fields (env : Environ) (config : Config) :
  loadConfig ParseFloat env = inr config ->
  (GoInt.min_int <= MaxPods config <= GoInt.max_int) /\
  (GoInt.min_int <= MinPods config <= GoInt.max_int) /\
  (GoInt.min_int <= MsgPerPod config <= GoInt.max_int) /\
  (GoInt.min_int <= ScanInterval config <= GoInt.max_int) /\
  RabbitMQHost config <> ""%string /\ QueueName config <> ""%string /\
  Namespace config <> ""%string /\ Deployment config <> ""%string.
Proof.
  intros H. apply loadConfig_iff in H.
  pose proof (settings_parse_range ParseFloat env config H) as (R1 & R2 & R3 & R4).
  destruct H as ((N1 & E1) & (N2 & E2) & (N3 & E3) & (N4 & E4) & _).
  repeat split; try lia; congruence.
Qed.

(** X24: the program touches the queue and the deployment, prints or
    pauses only after the whole configuration has loaded and the cluster
    configuration, the client, the connection and the channel have all
    been obtained; from there on it is the loop. *)
Theorem main_silent_before_loop (env : Environ) (boot : Boot)
    (cs : list Collaborators) :
  fst (main ParseFloat env boot cs) <> [] ->
  exists config,
    loadConfig ParseFloat env = inr config /\
    boots boot (RabbitMQHost config) /\
    main ParseFloat env boot cs =
      loop config (String.eqb (Getenv env "DEBUG") "true") cs.
Proof.
  unfold main, boots.
  destruct (loadConfig ParseFloat env) as [ p | config ]; [ cbn; congruence | ].
  destruct (InClusterConfig boot) as [ [] | e ]; [ | cbn; congruence ].
  destruct (NewForConfig boot) as [ [] | e ]; [ | cbn; congruence ].
  destruct (Dial boot (RabbitMQHost config)) as [ [] | e ] eqn:D; [ | cbn; congruence ].
  destruct (Channel boot) as [ [] | e ]; [ | cbn; congruence ].
  intros _. exists config. rewrite D. repeat split.
Qed.

End StartupFacts.

Lemma loadConfig_first_failure_witness :
  exists before key after,
    configKeys = before ++ key :: after /\
    (forall k, In k before ->
       forall c0, exists c1,
         loadField Strconv.ParseFloat_plain partial_env c0 k = inr c1) /\
    (forall c0, loadField Strconv.ParseFloat_plain partial_env c0 key =
                inl (ConfigNotSet "AMQP_BUILD_QUEUE")).
Proof.
  exact (proj1 (loadConfig_first_failure Strconv.ParseFloat_plain partial_env
                  (ConfigNotSet "AMQP_BUILD_QUEUE")) eq_refl).
Defined.

Lemma loadConfig_error_meaning_witness :
  exists f envName,
    In (f, envName) configKeys /\
    ((ConfigNotSet "AMQP_BUILD_QUEUE" = ConfigNotSet envName /\
      Getenv partial_env envName = ""%string) \/
     (ConfigNotSet "AMQP_BUILD_QUEUE" = ConfigNotInt (fieldName f) /\
      fieldKind f = KInt /\ Getenv partial_env envName <> ""%string /\
      Strconv.ParseInt (Getenv partial_env envName) = None) \/
     (ConfigNotSet "AMQP_BUILD_QUEUE" = ConfigNotFloat (fieldName f) /\
      fieldKind f = KFloat64 /\ Getenv partial_env envName <> ""%string /\
      Strconv.ParseFloat_plain (Getenv partial_env envName) = None)).
Proof.
  exact (loadConfig_error_meaning Strconv.ParseFloat_plain partial_env
           (ConfigNotSet "AMQP_BUILD_QUEUE") eq_refl).
Defined.

Lemma loadConfig_reads_nine_witness :
  loadConfig Strconv.ParseFloat_plain inverted_env =
  loadConfig Strconv.ParseFloat_plain (("HOME", "/root") :: inverted_env)%string.
Proof.
  apply (loadConfig_reads_nine Strconv.ParseFloat_plain inverted_env
           (("HOME", "/root") :: inverted_env)%string).
  intros f envName I. cbn in I.
  repeat (destruct I as [ I | I ]; [ injection I as <- <-; reflexivity | ]).
  contradiction.
Defined.

Lemma loadConfig_int_fields_witness :
  GoInt.min_int <= 3 <= GoInt.max_int /\ GoInt.min_int <= 5 <= GoInt.max_int.
Proof.
  pose proof (loadConfig_int_fields Strconv.ParseFloat_plain inverted_env _ eq_refl)
    as (R1 & R2 & _).
  split; [ exact R1 | exact R2 ].
Defined.

Lemma main_silent_before_loop_witness :
  exists config,
    loadConfig Strconv.ParseFloat_plain inverted_env = inr config /\
    boots example_boot (RabbitMQHost config) /\
    main Strconv.ParseFloat_plain inverted_env example_boot
         [example_collaborators 100 1] =
      loop config (String.eqb (Getenv inverted_env "DEBUG") "true")
           [example_collaborators 100 1].
Proof.
  apply (main_silent_before_loop Strconv.ParseFloat_plain inverted_env example_boot
           [example_collaborators 100 1]).
  cbn. discriminate.
Defined.
